(** * Differential-drive odometry motion model (beluga)

    A shallow embedding of [beluga/motion/differential_drive_model.hpp].

    Numbers: the C++ [double]s are idealised as real numbers.  The one place
    where the code can leave the reals is [std::sqrt] on a negative
    argument; that is modelled by the type [dbl], whose extra value [NaN]
    stands for the IEEE not-a-number the C++ function returns there.

    Geometry: [Sophus::SO2d] is a unit complex number, [Sophus::SE2d] a
    rotation together with a translation vector; their operations are
    written out below as Sophus defines them over the reals.

    Concurrency: the shared mutex only serialises accesses to the three
    parameter pairs; the model is the sequential behaviour of each call. *)

From Stdlib Require Import Reals Lra List.
Import ListNotations.

Open Scope R_scope.

(** ** The C++ math functions the model uses *)

Module Cmath.

(** A [double] that is either a real number or the IEEE not-a-number. *)
Inductive dbl : Type :=
| Num (x : R)
| NaN.

(** [std::sqrt]: not a number on negative arguments. *)
Definition cpp_sqrt (x : R) : dbl :=
  if Rlt_dec x 0 then NaN else Num (sqrt x).

(** [std::atan2(y, x)], the angle of the point [(x, y)], with the value 0
    at the origin. *)
Definition atan2 (y x : R) : R :=
  if Rlt_dec 0 x then atan (y / x)
  else if Rlt_dec x 0 then
         if Rle_dec 0 y then atan (y / x) + PI else atan (y / x) - PI
  else if Rlt_dec 0 y then PI / 2
  else if Rlt_dec y 0 then - (PI / 2)
  else 0.

End Cmath.

(** ** The part of Sophus and Eigen the model uses *)

Module Eigen.

Record Vector2d : Type := mkVector2d { vx : R; vy : R }.

Definition vsub (a b : Vector2d) : Vector2d :=
  mkVector2d (vx a - vx b) (vy a - vy b).

Definition vadd (a b : Vector2d) : Vector2d :=
  mkVector2d (vx a + vx b) (vy a + vy b).

(** [Vector2d::norm()] *)
Definition norm (v : Vector2d) : R := sqrt (vx v * vx v + vy v * vy v).

End Eigen.

Module Sophus.
Import Cmath Eigen.

(** [Sophus::SO2d]: the stored complex number [re + i im]. *)
Record SO2 : Type := mkSO2 { re : R; im : R }.

(** The class invariant of [SO2d]: the complex number has norm one. *)
Definition unit_complex (r : SO2) : Prop := re r * re r + im r * im r = 1.

(** The default-constructed [SO2d], the identity rotation. *)
Definition SO2_identity : SO2 := mkSO2 1 0.

(** [SO2d{theta}], the exponential map. *)
Definition SO2_exp (theta : R) : SO2 := mkSO2 (cos theta) (sin theta).

(** [SO2d::log()], the rotation angle. *)
Definition SO2_log (r : SO2) : R := atan2 (im r) (re r).

(** [SO2d::inverse()], the complex conjugate. *)
Definition SO2_inverse (r : SO2) : SO2 := mkSO2 (re r) (- im r).

(** [SO2d * SO2d], complex multiplication.  The product of two unit complex
    numbers is a unit complex number (see [unit_mul] below), so over the
    reals the renormalisation Sophus applies against rounding drift leaves
    the product as it is, and it is not written out. *)
Definition SO2_mul (a b : SO2) : SO2 :=
  mkSO2 (re a * re b - im a * im b) (re a * im b + im a * re b).

(** [SO2d * Vector2d], the rotation of a point. *)
Definition SO2_act (r : SO2) (p : Vector2d) : Vector2d :=
  mkVector2d (re r * vx p - im r * vy p) (im r * vx p + re r * vy p).

(** [Sophus::SE2d]. *)
Record SE2 : Type := mkSE2 { so2 : SO2; translation : Vector2d }.

(** [SE2d * SE2d]. *)
Definition SE2_mul (a b : SE2) : SE2 :=
  mkSE2 (SO2_mul (so2 a) (so2 b))
        (vadd (translation a) (SO2_act (so2 a) (translation b))).

(** Pure rotation and pure translation, [SE2d::rot] and [SE2d::trans]. *)
Definition SE2_rot (theta : R) : SE2 := mkSE2 (SO2_exp theta) (mkVector2d 0 0).
Definition SE2_trans (x y : R) : SE2 := mkSE2 SO2_identity (mkVector2d x y).

(** The pose [(x, y, theta)]. *)
Definition pose (x y theta : R) : SE2 := mkSE2 (SO2_exp theta) (mkVector2d x y).

End Sophus.

Declare Scope se2_scope.
Delimit Scope se2_scope with se2.
Infix "*" := Sophus.SE2_mul : se2_scope.
Declare Scope so2_scope.
Delimit Scope so2_scope with so2.
Infix "*" := Sophus.SO2_mul : so2_scope.

(** ** The motion model *)

Module DifferentialDriveModel.
Import Cmath Eigen Sophus.

(** [struct DifferentialDriveModelParam] *)
Record DifferentialDriveModelParam : Type := mkParam {
  rotation_noise_from_rotation : R;
  rotation_noise_from_translation : R;
  translation_noise_from_translation : R;
  translation_noise_from_rotation : R;
  distance_threshold : R
}.

(** [std::normal_distribution<double>::param_type]: mean and standard
    deviation.  The means the model stores are always real numbers; a
    standard deviation comes out of [std::sqrt]. *)
Record DistributionParam : Type := mkDistributionParam {
  mean : R;
  stddev : dbl
}.

(** The data members of the class (the mutex apart). *)
Record t : Type := mkModel {
  params_ : DifferentialDriveModelParam;
  last_pose_ : option SE2;
  first_rotation_params_ : DistributionParam;
  second_rotation_params_ : DistributionParam;
  translation_params_ : DistributionParam
}.

(** The constructor: the parameters are stored as they are, no pose has been
    seen, and the three parameter pairs take their default member
    initialisers [{0.0, 0.0}]. *)
Definition make (params : DifferentialDriveModelParam) : t :=
  mkModel params None
          (mkDistributionParam 0 (Num 0))
          (mkDistributionParam 0 (Num 0))
          (mkDistributionParam 0 (Num 0)).

(** A random bit generator, seen through the distribution that consumes it:
    the sequence of standard normal variates it will yield. *)
Definition Generator : Type := nat -> R.

(** [distribution(gen, param)]: the next standard normal variate, scaled by
    the standard deviation and shifted by the mean, as the standard
    libraries compute it; the generator advances.  A standard deviation that
    is not a number yields a variate that is not a number. *)
Definition distribution (gen : Generator) (p : DistributionParam)
  : dbl * Generator :=
  (match stddev p with
   | Num sd => Num (gen 0%nat * sd + mean p)
   | NaN => NaN
   end,
   fun n => gen (S n)).

(** [rotation_variance] *)
Definition rotation_variance (rotation : SO2) : R :=
  let flipped_rotation := (rotation * SO2_exp PI)%so2 in
  let delta := Rmin (Rabs (SO2_log rotation)) (Rabs (SO2_log flipped_rotation)) in
  delta * delta.

(** The locals of [update_motion], as functions of the configured
    parameters, the stored pose [last] and the new pose [pose]. *)
Section Decomposition.
Variable params : DifferentialDriveModelParam.
Variables last pose : SE2.

Definition translation_delta : Vector2d :=
  vsub (translation pose) (translation last).

Definition distance : R := norm translation_delta.

Definition distance_variance : R := distance * distance.

Definition first_rotation : SO2 :=
  if Rlt_dec (distance_threshold params) distance
  then (SO2_exp (atan2 (vy translation_delta) (vx translation_delta))
        * SO2_inverse (so2 last))%so2
  else SO2_exp 0.

Definition second_rotation : SO2 :=
  (so2 pose * SO2_inverse (so2 last) * SO2_inverse first_rotation)%so2.

Definition combined_rotation : SO2 :=
  (first_rotation * second_rotation)%so2.

(** The arguments of the three calls of [std::sqrt]. *)
Definition first_rotation_radicand : R :=
  rotation_noise_from_rotation params * rotation_variance first_rotation
  + rotation_noise_from_translation params * distance_variance.

Definition translation_radicand : R :=
  translation_noise_from_translation params * distance_variance
  + translation_noise_from_rotation params
    * rotation_variance combined_rotation.

Definition second_rotation_radicand : R :=
  rotation_noise_from_rotation params * rotation_variance second_rotation
  + rotation_noise_from_translation params * distance_variance.
End Decomposition.

(** [update_motion] *)
Definition update_motion (pose : SE2) (m : t) : t :=
  let m' :=
    match last_pose_ m with
    | Some last =>
        let p := params_ m in
        mkModel p (last_pose_ m)
          (mkDistributionParam
             (SO2_log (first_rotation p last pose))
             (cpp_sqrt (first_rotation_radicand p last pose)))
          (mkDistributionParam
             (SO2_log (second_rotation p last pose))
             (cpp_sqrt (second_rotation_radicand p last pose)))
          (mkDistributionParam
             (distance last pose)
             (cpp_sqrt (translation_radicand p last pose)))
    | None => m
    end in
  mkModel (params_ m') (Some pose)
          (first_rotation_params_ m')
          (second_rotation_params_ m')
          (translation_params_ m').

(** [latest_motion_update], a [const] member: it returns the stored pose
    and the model as it was. *)
Definition latest_motion_update (m : t) : option SE2 * t := (last_pose_ m, m).

(** The sampled motion [apply_motion] composes with the particle state. *)
Definition sampled_motion (state : SE2) (f d s : R) : SE2 :=
  (state * mkSE2 (SO2_exp f) (mkVector2d 0 0)
         * mkSE2 (SO2_exp s) (mkVector2d d 0))%se2.

(** [apply_motion]: three draws, in the order of the code, and the
    composition.  The model and the state are read only; the generator
    advances.  [None] stands for a result with a not-a-number entry. *)
Definition apply_motion (m : t) (state : SE2) (gen : Generator)
  : option SE2 * Generator :=
  let (f, gen1) := distribution gen (first_rotation_params_ m) in
  let (d, gen2) := distribution gen1 (translation_params_ m) in
  let (s, gen3) := distribution gen2 (second_rotation_params_ m) in
  (match f, d, s with
   | Num f, Num d, Num s => Some (sampled_motion state f d s)
   | _, _, _ => None
   end,
   gen3).

(** The sequence of calls [update_motion(p1); update_motion(p2); ...]. *)
Definition feed (poses : list SE2) (m : t) : t :=
  List.fold_left (fun acc p => update_motion p acc) poses m.

(** The model with its three means kept and its three standard deviations
    set to zero: sampling from it yields the means themselves. *)
Definition without_noise (m : t) : t :=
  mkModel (params_ m) (last_pose_ m)
          (mkDistributionParam (mean (first_rotation_params_ m)) (Num 0))
          (mkDistributionParam (mean (second_rotation_params_ m)) (Num 0))
          (mkDistributionParam (mean (translation_params_ m)) (Num 0)).

(** Some coefficient of the parameters is negative. *)
Definition negative_coefficient (p : DifferentialDriveModelParam) : Prop :=
  rotation_noise_from_rotation p < 0
  \/ rotation_noise_from_translation p < 0
  \/ translation_noise_from_translation p < 0
  \/ translation_noise_from_rotation p < 0.




(** The three means are in range: rotation angles between [-PI] (excluded)
    and [PI] (included), and a non-negative distance. *)
Definition means_in_range (m : t) : Prop :=
  - PI < mean (first_rotation_params_ m) <= PI
  /\ 0 <= mean (translation_params_ m)
  /\ - PI < mean (second_rotation_params_ m) <= PI.

(** The direction of travel from the pose [last] to the pose [pose], as
    [update_motion] computes it above the threshold. *)
Definition heading_of_travel (last pose : SE2) : SO2 :=
  SO2_exp (atan2 (vy (translation_delta last pose))
                 (vx (translation_delta last pose))).

End DifferentialDriveModel.

(** ** Concrete parameters and poses used in the examples *)

Module Scenario.
Import Cmath Eigen Sophus DifferentialDriveModel.

(** The parameters [{0.1, 0.1, 0.1, 0.1, 0.01}]. *)
Definition params : DifferentialDriveModelParam :=
  mkParam (1 / 10) (1 / 10) (1 / 10) (1 / 10) (1 / 100).

(** The same with a negative first coefficient. *)
Definition negative_params : DifferentialDriveModelParam :=
  mkParam (- (1)) (1 / 10) (1 / 10) (1 / 10) (1 / 100).

Definition origin : SE2 := pose 0 0 0.
Definition ahead : SE2 := pose 1 0 0.
Definition turned : SE2 := pose 1 0 (PI / 2).

(** A quarter turn on the spot at the origin. *)
Definition spun : SE2 := pose 0 0 (PI / 2).

(** Five millimetres to the left of the origin, heading unchanged. *)
Definition sideways : SE2 := pose 0 (1 / 200) 0.

(** A generator whose every standard normal variate is one. *)
Definition ones : Generator := fun _ => 1.

End Scenario.

(** ** Facts about the math functions *)

Module CmathFacts.
Import Cmath.

Lemma cpp_sqrt_nonneg (x : R) : 0 <= x -> cpp_sqrt x = Num (sqrt x).
Proof.
  intros Hx. unfold cpp_sqrt. destruct (Rlt_dec x 0); [lra | reflexivity].
Qed.

Lemma cpp_sqrt_neg (x : R) : x < 0 -> cpp_sqrt x = NaN.
Proof.
  intros Hx. unfold cpp_sqrt. destruct (Rlt_dec x 0); [reflexivity | lra].
Qed.

Lemma cpp_sqrt_0 : cpp_sqrt 0 = Num 0.
Proof. rewrite cpp_sqrt_nonneg by lra. now rewrite sqrt_0. Qed.

(** The norm of [(x, y)] in terms of the slope [y / x]. *)
Lemma hypot_slope (x y : R) :
  x <> 0 -> sqrt (x * x + y * y) = Rabs x * sqrt (1 + (y / x)²).
Proof.
  intros Hx.
  replace (x * x + y * y) with (x² * (1 + (y / x)²))
    by (unfold Rsqr; field; exact Hx).
  rewrite sqrt_mult.
  - now rewrite sqrt_Rsqr_abs.
  - apply Rle_0_sqr.
  - pose proof (Rle_0_sqr (y / x)). lra.
Qed.

Lemma slope_pos (t : R) : 0 < sqrt (1 + t²).
Proof. apply sqrt_lt_R0. pose proof (Rle_0_sqr t). lra. Qed.

(** Values of [atan2] on the four half-axes and at the origin. *)
Lemma atan2_0_pos (x : R) : 0 < x -> atan2 0 x = 0.
Proof.
  intros Hx. unfold atan2. destruct (Rlt_dec 0 x); [|lra].
  replace (0 / x) with 0 by (field; lra). apply atan_0.
Qed.

Lemma atan2_0_neg (x : R) : x < 0 -> atan2 0 x = PI.
Proof.
  intros Hx. unfold atan2.
  destruct (Rlt_dec 0 x); [lra|]. destruct (Rlt_dec x 0); [|lra].
  destruct (Rle_dec 0 0); [|lra].
  replace (0 / x) with 0 by (field; lra). rewrite atan_0. lra.
Qed.

Lemma atan2_pos_0 (y : R) : 0 < y -> atan2 y 0 = PI / 2.
Proof.
  intros Hy. unfold atan2.
  destruct (Rlt_dec 0 0); [lra|]. destruct (Rlt_dec 0 y); [reflexivity | lra].
Qed.

Lemma atan2_neg_0 (y : R) : y < 0 -> atan2 y 0 = - (PI / 2).
Proof.
  intros Hy. unfold atan2.
  destruct (Rlt_dec 0 0); [lra|]. destruct (Rlt_dec 0 y); [lra|].
  destruct (Rlt_dec y 0); [reflexivity | lra].
Qed.

Lemma atan2_0_0 : atan2 0 0 = 0.
Proof.
  unfold atan2.
  destruct (Rlt_dec 0 0); [lra|]. reflexivity.
Qed.

(** The angle lies in the half-open interval from [-PI] to [PI]. *)
Lemma atan2_bound (y x : R) : - PI < atan2 y x <= PI.
Proof.
  pose proof PI_RGT_0 as Hpi.
  pose proof (atan_bound (y / x)) as [Hlo Hhi].
  unfold atan2.
  destruct (Rlt_dec 0 x) as [Hx|Hx]; [lra|].
  destruct (Rlt_dec x 0) as [Hx'|Hx'].
  - destruct (Rle_dec 0 y) as [Hy|Hy].
    + assert (y / x <= 0).
      { unfold Rdiv. replace (y * / x) with (- (y * / - x)).
        - assert (0 < / - x) by (apply Rinv_0_lt_compat; lra). nra.
        - field; lra. }
      assert (atan (y / x) <= 0).
      { destruct (Req_dec (y / x) 0) as [E|E].
        - rewrite E, atan_0. lra.
        - rewrite <- atan_0. left. apply atan_increasing. lra. }
      lra.
    + assert (0 < y / x).
      { unfold Rdiv. replace (y * / x) with ((- y) * / - x) by (field; lra).
        apply Rmult_lt_0_compat; [lra | apply Rinv_0_lt_compat; lra]. }
      assert (0 < atan (y / x)).
      { rewrite <- atan_0. apply atan_increasing. lra. }
      lra.
  - destruct (Rlt_dec 0 y); [lra|]. destruct (Rlt_dec y 0); lra.
Qed.

(** [atan2] recovers the direction of a point: norm times cosine and sine
    of the angle give back the coordinates. *)
Lemma hypot_cos_atan2 (y x : R) : sqrt (x * x + y * y) * cos (atan2 y x) = x.
Proof.
  unfold atan2.
  destruct (Rlt_dec 0 x) as [Hx|Hx].
  - rewrite hypot_slope by lra. rewrite cos_atan, Rabs_right by lra.
    pose proof (slope_pos (y / x)). field. lra.
  - destruct (Rlt_dec x 0) as [Hx'|Hx'].
    + rewrite hypot_slope by lra. rewrite Rabs_left by lra.
      pose proof (slope_pos (y / x)).
      destruct (Rle_dec 0 y).
      * rewrite neg_cos, cos_atan. field. lra.
      * unfold Rminus. rewrite cos_plus, cos_neg, sin_neg, cos_PI, sin_PI.
        rewrite cos_atan. field. lra.
    + assert (x = 0) by lra. subst x.
      destruct (Rlt_dec 0 y); [rewrite cos_PI2; ring|].
      destruct (Rlt_dec y 0); [rewrite cos_neg, cos_PI2; ring|].
      assert (y = 0) by lra. subst y.
      replace (0 * 0 + 0 * 0) with 0 by ring. rewrite sqrt_0. ring.
Qed.

Lemma hypot_sin_atan2 (y x : R) : sqrt (x * x + y * y) * sin (atan2 y x) = y.
Proof.
  unfold atan2.
  destruct (Rlt_dec 0 x) as [Hx|Hx].
  - rewrite hypot_slope by lra. rewrite sin_atan, Rabs_right by lra.
    pose proof (slope_pos (y / x)). field. lra.
  - destruct (Rlt_dec x 0) as [Hx'|Hx'].
    + rewrite hypot_slope by lra. rewrite Rabs_left by lra.
      pose proof (slope_pos (y / x)).
      destruct (Rle_dec 0 y).
      * rewrite neg_sin, sin_atan. field. lra.
      * unfold Rminus. rewrite sin_plus, cos_neg, sin_neg, cos_PI, sin_PI.
        rewrite sin_atan. field. lra.
    + assert (x = 0) by lra. subst x.
      replace (0 * 0 + y * y) with (y * y) by ring.
      destruct (Rlt_dec 0 y).
      { rewrite sin_PI2, sqrt_square by lra. ring. }
      destruct (Rlt_dec y 0).
      { rewrite sin_neg, sin_PI2.
        replace (y * y) with ((- y) * (- y)) by ring.
        rewrite sqrt_square by lra. ring. }
      assert (y = 0) by lra. subst y.
      replace (0 * 0) with 0 by ring. rewrite sqrt_0. ring.
Qed.

End CmathFacts.

(** ** Facts about rotations and rigid transforms *)

Module SophusFacts.
Import Cmath Eigen Sophus CmathFacts.

Lemma SO2_eq (a b : SO2) : re a = re b -> im a = im b -> a = b.
Proof. destruct a, b; simpl; intros -> ->; reflexivity. Qed.

Lemma Vector2d_eq (a b : Vector2d) : vx a = vx b -> vy a = vy b -> a = b.
Proof. destruct a, b; simpl; intros -> ->; reflexivity. Qed.

Lemma SO2_exp_0 : SO2_exp 0 = SO2_identity.
Proof. unfold SO2_exp, SO2_identity. now rewrite cos_0, sin_0. Qed.

Lemma SO2_exp_PI2 : SO2_exp (PI / 2) = mkSO2 0 1.
Proof. unfold SO2_exp. now rewrite cos_PI2, sin_PI2. Qed.

Lemma SO2_exp_PI : SO2_exp PI = mkSO2 (-1) 0.
Proof. unfold SO2_exp. now rewrite cos_PI, sin_PI. Qed.

Lemma SO2_exp_plus (a b : R) : SO2_exp (a + b) = (SO2_exp a * SO2_exp b)%so2.
Proof.
  unfold SO2_exp, SO2_mul; simpl. rewrite cos_plus, sin_plus.
  apply SO2_eq; simpl; ring.
Qed.

Lemma SO2_mul_comm (a b : SO2) : (a * b)%so2 = (b * a)%so2.
Proof. apply SO2_eq; simpl; ring. Qed.

Lemma SO2_mul_assoc (a b c : SO2) : (a * b * c)%so2 = (a * (b * c))%so2.
Proof. apply SO2_eq; simpl; ring. Qed.

Lemma SO2_mul_1_r (a : SO2) : (a * SO2_identity)%so2 = a.
Proof. apply SO2_eq; simpl; ring. Qed.

Lemma SO2_mul_1_l (a : SO2) : (SO2_identity * a)%so2 = a.
Proof. apply SO2_eq; simpl; ring. Qed.

Lemma SO2_inverse_identity : SO2_inverse SO2_identity = SO2_identity.
Proof. apply SO2_eq; simpl; ring. Qed.

Lemma SO2_mul_inverse_r (a : SO2) :
  unit_complex a -> (a * SO2_inverse a)%so2 = SO2_identity.
Proof.
  unfold unit_complex. intros Ha. apply SO2_eq; simpl.
  - rewrite <- Ha. ring.
  - ring.
Qed.

Lemma SO2_inverse_exp (a : R) : SO2_inverse (SO2_exp a) = SO2_exp (- a).
Proof. unfold SO2_inverse, SO2_exp; simpl. now rewrite cos_neg, sin_neg. Qed.

(** The invariant holds of every rotation the code builds. *)
Lemma unit_identity : unit_complex SO2_identity.
Proof. unfold unit_complex; simpl; ring. Qed.

Lemma unit_exp (a : R) : unit_complex (SO2_exp a).
Proof.
  unfold unit_complex, SO2_exp; simpl.
  pose proof (sin2_cos2 a) as H. unfold Rsqr in H. lra.
Qed.

Lemma unit_inverse (a : SO2) : unit_complex a -> unit_complex (SO2_inverse a).
Proof. unfold unit_complex; simpl. intros H. rewrite <- H. ring. Qed.

Lemma unit_mul (a b : SO2) :
  unit_complex a -> unit_complex b -> unit_complex (a * b)%so2.
Proof.
  unfold unit_complex; simpl. intros Ha Hb.
  replace 1 with ((re a * re a + im a * im a) * (re b * re b + im b * im b))
    by (rewrite Ha, Hb; ring).
  ring.
Qed.

Create HintDb so2.
#[export] Hint Resolve unit_identity unit_exp unit_inverse unit_mul : so2.

(** A half turn flips the sign of both coordinates, and two of them cancel. *)
Lemma SO2_mul_half_turn (a : SO2) :
  (a * SO2_exp PI)%so2 = mkSO2 (- re a) (- im a).
Proof. rewrite SO2_exp_PI. apply SO2_eq; simpl; ring. Qed.

Lemma SO2_half_turn_twice (a : SO2) : (a * SO2_exp PI * SO2_exp PI)%so2 = a.
Proof. rewrite !SO2_mul_half_turn. apply SO2_eq; simpl; ring. Qed.

(** Exponential after logarithm is the identity on unit complex numbers. *)
Lemma SO2_exp_log (a : SO2) : unit_complex a -> SO2_exp (SO2_log a) = a.
Proof.
  unfold unit_complex, SO2_exp, SO2_log. intros Ha.
  pose proof (hypot_cos_atan2 (im a) (re a)) as Hc.
  pose proof (hypot_sin_atan2 (im a) (re a)) as Hs.
  rewrite Ha, sqrt_1, Rmult_1_l in Hc, Hs.
  apply SO2_eq; simpl; assumption.
Qed.

(** Logarithm after exponential is the identity on angles between [-PI]
    (excluded) and [PI] (included): the logarithm is the wrapped angle. *)
Lemma SO2_log_exp (a : R) : - PI < a <= PI -> SO2_log (SO2_exp a) = a.
Proof.
  intros [Hlo Hhi]. pose proof PI_RGT_0 as Hpi.
  unfold SO2_log, SO2_exp; simpl. unfold atan2.
  destruct (Rlt_dec 0 (cos a)) as [Hc|Hc].
  - (* the right half plane *)
    assert (- (PI / 2) < a < PI / 2) as Hr.
    { split.
      - destruct (Rlt_dec (- (PI / 2)) a) as [|Hn]; [assumption|].
        exfalso. assert (cos (- a) <= 0).
        { apply cos_le_0; lra. }
        rewrite cos_neg in *. lra.
      - destruct (Rlt_dec a (PI / 2)) as [|Hn]; [assumption|].
        exfalso. assert (cos a <= 0) by (apply cos_le_0; lra). lra. }
    change (sin a / cos a) with (tan a). now apply atan_tan.
  - destruct (Rlt_dec (cos a) 0) as [Hc'|Hc'].
    + destruct (Rle_dec 0 (sin a)) as [Hs|Hs].
      * (* second quadrant *)
        assert (PI / 2 < a) as Hq.
        { destruct (Rlt_dec (PI / 2) a) as [|Hn]; [assumption|]. exfalso.
          destruct (Rle_dec (- (PI / 2)) a).
          - assert (0 <= cos a) by (apply cos_ge_0; lra). lra.
          - assert (sin a < 0) by (apply sin_lt_0_var; lra). lra. }
        replace (sin a / cos a) with (tan (a - PI)).
        -- rewrite atan_tan by lra. lra.
        -- unfold tan, Rminus.
           rewrite sin_plus, cos_plus, cos_neg, sin_neg, cos_PI, sin_PI.
           field. lra.
      * (* third quadrant *)
        assert (a < - (PI / 2)) as Hq.
        { destruct (Rlt_dec a (- (PI / 2))) as [|Hn]; [assumption|]. exfalso.
          destruct (Rle_dec a (PI / 2)).
          - assert (0 <= cos a) by (apply cos_ge_0; lra). lra.
          - assert (0 <= sin a) by (apply sin_ge_0; lra). lra. }
        replace (sin a / cos a) with (tan (a + PI)).
        -- rewrite atan_tan by lra. lra.
        -- unfold tan. rewrite neg_sin, neg_cos. field. lra.
    + (* on the vertical axis *)
      assert (cos a = 0) as Hz by lra.
      assert (a = PI / 2 \/ a = - (PI / 2)) as [E|E].
      { destruct (Rle_dec 0 a).
        - left. destruct (Rtotal_order a (PI / 2)) as [H|[H|H]].
          + assert (0 < cos a) by (apply cos_gt_0; lra). lra.
          + assumption.
          + assert (cos a < 0) by (apply cos_lt_0; lra). lra.
        - right. destruct (Rtotal_order a (- (PI / 2))) as [H|[H|H]].
          + assert (cos (- a) < 0) by (apply cos_lt_0; lra).
            rewrite cos_neg in *. lra.
          + assumption.
          + assert (0 < cos a) by (apply cos_gt_0; lra). lra. }
      * subst a. rewrite sin_PI2.
        destruct (Rlt_dec 0 1); [reflexivity | lra].
      * subst a. rewrite sin_neg, sin_PI2.
        destruct (Rlt_dec 0 (- (1))); [lra|].
        destruct (Rlt_dec (- (1)) 0); [reflexivity | lra].
Qed.

Lemma SO2_log_bound (a : SO2) : - PI < SO2_log a <= PI.
Proof. apply atan2_bound. Qed.

Lemma SO2_log_identity : SO2_log SO2_identity = 0.
Proof. unfold SO2_log, SO2_identity; simpl. apply atan2_0_pos. lra. Qed.

(** Composition of rigid transforms is associative, with a unit. *)
Lemma SE2_eq (a b : SE2) :
  so2 a = so2 b -> translation a = translation b -> a = b.
Proof. destruct a, b; simpl; intros -> ->; reflexivity. Qed.

Lemma SE2_mul_assoc (a b c : SE2) : (a * b * c)%se2 = (a * (b * c))%se2.
Proof.
  apply SE2_eq; simpl.
  - apply SO2_mul_assoc.
  - apply Vector2d_eq; simpl; ring.
Qed.

Lemma SE2_mul_1_r (a : SE2) :
  (a * mkSE2 SO2_identity (mkVector2d 0 0))%se2 = a.
Proof.
  apply SE2_eq; simpl.
  - apply SO2_mul_1_r.
  - apply Vector2d_eq; simpl; ring.
Qed.

End SophusFacts.

(** ** Facts about the motion model *)

Module ModelFacts.
Import Cmath Eigen Sophus DifferentialDriveModel CmathFacts SophusFacts.

Lemma update_motion_first (pose : SE2) (m : t) :
  last_pose_ m = None ->
  update_motion pose m =
  mkModel (params_ m) (Some pose) (first_rotation_params_ m)
          (second_rotation_params_ m) (translation_params_ m).
Proof. intros H. unfold update_motion. now rewrite H. Qed.

Lemma update_motion_next (pose last : SE2) (m : t) :
  last_pose_ m = Some last ->
  update_motion pose m =
  mkModel (params_ m) (Some pose)
    (mkDistributionParam
       (SO2_log (first_rotation (params_ m) last pose))
       (cpp_sqrt (first_rotation_radicand (params_ m) last pose)))
    (mkDistributionParam
       (SO2_log (second_rotation (params_ m) last pose))
       (cpp_sqrt (second_rotation_radicand (params_ m) last pose)))
    (mkDistributionParam
       (distance last pose)
       (cpp_sqrt (translation_radicand (params_ m) last pose))).
Proof. intros H. unfold update_motion. now rewrite H. Qed.

Lemma update_motion_last_pose (pose : SE2) (m : t) :
  last_pose_ (update_motion pose m) = Some pose.
Proof. reflexivity. Qed.

Lemma update_motion_params (pose : SE2) (m : t) :
  params_ (update_motion pose m) = params_ m.
Proof. unfold update_motion. now destruct (last_pose_ m). Qed.

(** The branch of [first_rotation]. *)
Lemma first_rotation_far (p : DifferentialDriveModelParam) (last pose : SE2) :
  distance_threshold p < distance last pose ->
  first_rotation p last pose =
  (SO2_exp (atan2 (vy (translation_delta last pose))
                  (vx (translation_delta last pose)))
   * SO2_inverse (so2 last))%so2.
Proof.
  intros H. unfold first_rotation.
  destruct (Rlt_dec (distance_threshold p) (distance last pose)); [reflexivity | lra].
Qed.

Lemma first_rotation_near (p : DifferentialDriveModelParam) (last pose : SE2) :
  distance last pose <= distance_threshold p ->
  first_rotation p last pose = SO2_identity.
Proof.
  intros H. unfold first_rotation.
  destruct (Rlt_dec (distance_threshold p) (distance last pose)); [lra|].
  apply SO2_exp_0.
Qed.

Lemma unit_first_rotation (p : DifferentialDriveModelParam) (last pose : SE2) :
  unit_complex (so2 last) -> unit_complex (first_rotation p last pose).
Proof.
  intros H. unfold first_rotation.
  destruct (Rlt_dec (distance_threshold p) (distance last pose)); auto with so2.
Qed.

Lemma unit_second_rotation (p : DifferentialDriveModelParam) (last pose : SE2) :
  unit_complex (so2 last) -> unit_complex (so2 pose) ->
  unit_complex (second_rotation p last pose).
Proof.
  intros Hl Hp. unfold second_rotation.
  auto using unit_first_rotation with so2.
Qed.

Lemma distance_nonneg (last pose : SE2) : 0 <= distance last pose.
Proof. apply sqrt_pos. Qed.

Lemma rotation_variance_nonneg (r : SO2) : 0 <= rotation_variance r.
Proof. unfold rotation_variance. cbv zeta. apply Rle_0_sqr. Qed.

(** The rotation variance of the identity, of a quarter turn, and under a
    further half turn. *)
Lemma rotation_variance_identity : rotation_variance SO2_identity = 0.
Proof.
  unfold rotation_variance. cbv zeta.
  rewrite SO2_log_identity, Rabs_R0, Rmin_left.
  - ring.
  - apply Rabs_pos.
Qed.

Lemma rotation_variance_quarter :
  rotation_variance (mkSO2 0 1) = (PI / 2) * (PI / 2).
Proof.
  pose proof PI_RGT_0.
  unfold rotation_variance. cbv zeta.
  rewrite SO2_mul_half_turn. unfold SO2_log; simpl.
  rewrite atan2_pos_0 by lra.
  replace (- 0) with 0 by ring. rewrite atan2_neg_0 by lra.
  rewrite Rabs_Ropp, Rmin_left by lra.
  rewrite Rabs_right by lra. reflexivity.
Qed.

Lemma rotation_variance_half_turn (r : SO2) :
  rotation_variance (r * SO2_exp PI)%so2 = rotation_variance r.
Proof.
  unfold rotation_variance. cbv zeta.
  rewrite SO2_half_turn_twice, Rmin_comm. reflexivity.
Qed.

(** With non-negative coefficients the three arguments of [std::sqrt] are
    non-negative, and the three standard deviations are real numbers. *)
Section NonNegativeCoefficients.
Variable p : DifferentialDriveModelParam.
Hypothesis alpha1 : 0 <= rotation_noise_from_rotation p.
Hypothesis alpha2 : 0 <= rotation_noise_from_translation p.
Hypothesis alpha3 : 0 <= translation_noise_from_translation p.
Hypothesis alpha4 : 0 <= translation_noise_from_rotation p.

Lemma radicands_nonneg (last pose : SE2) :
  0 <= first_rotation_radicand p last pose
  /\ 0 <= translation_radicand p last pose
  /\ 0 <= second_rotation_radicand p last pose.
Proof.
  pose proof (rotation_variance_nonneg (first_rotation p last pose)).
  pose proof (rotation_variance_nonneg (second_rotation p last pose)).
  pose proof (rotation_variance_nonneg (combined_rotation p last pose)).
  assert (0 <= distance_variance last pose) by apply Rle_0_sqr.
  unfold first_rotation_radicand, translation_radicand,
    second_rotation_radicand.
  repeat split; apply Rplus_le_le_0_compat; apply Rmult_le_pos; assumption.
Qed.

Lemma update_motion_stddev_real (m : t) (last pose : SE2) :
  params_ m = p -> last_pose_ m = Some last ->
  stddev (first_rotation_params_ (update_motion pose m))
  = Num (sqrt (first_rotation_radicand p last pose))
  /\ stddev (translation_params_ (update_motion pose m))
     = Num (sqrt (translation_radicand p last pose))
  /\ stddev (second_rotation_params_ (update_motion pose m))
     = Num (sqrt (second_rotation_radicand p last pose)).
Proof.
  intros Hp Hlast. rewrite (update_motion_next _ _ _ Hlast), Hp.
  cbn [first_rotation_params_ translation_params_ second_rotation_params_
       stddev].
  destruct (radicands_nonneg last pose) as (H1 & H2 & H3).
  repeat split; now apply cpp_sqrt_nonneg.
Qed.
End NonNegativeCoefficients.

(** Sampling with standard deviation zero yields the mean. *)
Lemma distribution_zero (gen : Generator) (mu : R) :
  distribution gen (mkDistributionParam mu (Num 0))
  = (Num mu, fun n => gen (S n)).
Proof. unfold distribution; simpl. do 2 f_equal. ring. Qed.

Lemma apply_motion_without_noise (m : t) (state : SE2) (gen : Generator) :
  apply_motion (without_noise m) state gen =
  (Some (sampled_motion state (mean (first_rotation_params_ m))
                        (mean (translation_params_ m))
                        (mean (second_rotation_params_ m))),
   fun n => gen (S (S (S n)))).
Proof.
  unfold apply_motion, without_noise.
  cbn [first_rotation_params_ translation_params_ second_rotation_params_].
  rewrite !distribution_zero. reflexivity.
Qed.

(** A standard deviation that is not a number makes the sampled pose not a
    pose over the reals. *)
Lemma apply_motion_nan (m : t) (state : SE2) (gen : Generator) :
  stddev (first_rotation_params_ m) = NaN
  \/ stddev (translation_params_ m) = NaN
  \/ stddev (second_rotation_params_ m) = NaN ->
  fst (apply_motion m state gen) = None.
Proof.
  unfold apply_motion, distribution.
  destruct (stddev (first_rotation_params_ m)),
    (stddev (translation_params_ m)),
    (stddev (second_rotation_params_ m)); simpl;
    intros [H|[H|H]]; congruence.
Qed.

End ModelFacts.

(** ** The decomposition on the concrete poses *)

Module ScenarioFacts.
Import Cmath Eigen Sophus DifferentialDriveModel.
Import CmathFacts SophusFacts ModelFacts Scenario.

(** Straight ahead by one metre: no rotation at all. *)
Lemma distance_origin_ahead : distance origin ahead = 1.
Proof.
  unfold distance, norm, translation_delta, vsub; simpl.
  replace ((1 - 0) * (1 - 0) + (0 - 0) * (0 - 0)) with 1 by ring.
  apply sqrt_1.
Qed.

Lemma first_rotation_origin_ahead (p : DifferentialDriveModelParam) :
  first_rotation p origin ahead = SO2_identity.
Proof.
  unfold first_rotation.
  destruct (Rlt_dec _ _); [|apply SO2_exp_0].
  unfold translation_delta, vsub; simpl.
  replace (0 - 0) with 0 by ring. replace (1 - 0) with 1 by ring.
  rewrite atan2_0_pos by lra.
  rewrite SO2_exp_0. apply SO2_mul_inverse_r, unit_identity.
Qed.

Lemma second_rotation_origin_ahead (p : DifferentialDriveModelParam) :
  second_rotation p origin ahead = SO2_identity.
Proof.
  unfold second_rotation. rewrite first_rotation_origin_ahead. simpl.
  rewrite SO2_exp_0, !SO2_inverse_identity, !SO2_mul_1_r. reflexivity.
Qed.

(** Turning on the spot by a quarter turn: no translation, no first
    rotation. *)
Lemma distance_ahead_turned : distance ahead turned = 0.
Proof.
  unfold distance, norm, translation_delta, vsub; simpl.
  replace ((1 - 1) * (1 - 1) + (0 - 0) * (0 - 0)) with 0 by ring.
  apply sqrt_0.
Qed.

Lemma distance_origin_quarter : distance origin spun = 0.
Proof.
  unfold distance, norm, translation_delta, vsub; simpl.
  replace ((0 - 0) * (0 - 0) + (0 - 0) * (0 - 0)) with 0 by ring.
  apply sqrt_0.
Qed.

Lemma first_rotation_origin_quarter (p : DifferentialDriveModelParam) :
  first_rotation p origin spun = SO2_identity.
Proof.
  unfold first_rotation.
  destruct (Rlt_dec _ _); [|apply SO2_exp_0].
  unfold translation_delta, vsub; simpl.
  replace (0 - 0) with 0 by ring.
  rewrite atan2_0_0, SO2_exp_0. apply SO2_mul_inverse_r, unit_identity.
Qed.

Lemma second_rotation_origin_quarter (p : DifferentialDriveModelParam) :
  second_rotation p origin spun = mkSO2 0 1.
Proof.
  unfold second_rotation. rewrite first_rotation_origin_quarter. simpl.
  rewrite SO2_exp_0, !SO2_inverse_identity, !SO2_mul_1_r.
  apply SO2_exp_PI2.
Qed.

(** Five millimetres sideways: below the threshold of one centimetre. *)
Lemma distance_origin_sideways : distance origin sideways = 1 / 200.
Proof.
  unfold distance, norm, translation_delta, vsub; simpl.
  replace ((0 - 0) * (0 - 0) + (1 / 200 - 0) * (1 / 200 - 0))
    with ((1 / 200) * (1 / 200)) by ring.
  apply sqrt_square. lra.
Qed.

End ScenarioFacts.

(** ** Recomposition of the decomposed motion *)

Module RoundTrip.
Import Cmath Eigen Sophus DifferentialDriveModel.
Import CmathFacts SophusFacts ModelFacts.

Lemma SO2_recompose (a f n : SO2) :
  unit_complex a -> unit_complex f ->
  (a * f * (n * SO2_inverse a * SO2_inverse f))%so2 = n.
Proof.
  unfold unit_complex. intros Ha Hf. apply SO2_eq; simpl.
  - transitivity (re n * (re a * re a + im a * im a)
                       * (re f * re f + im f * im f)); [ring|].
    rewrite Ha, Hf. ring.
  - transitivity (im n * (re a * re a + im a * im a)
                       * (re f * re f + im f * im f)); [ring|].
    rewrite Ha, Hf. ring.
Qed.

Lemma SO2_heading (a h : SO2) :
  unit_complex a -> (a * (h * SO2_inverse a))%so2 = h.
Proof.
  unfold unit_complex. intros Ha. apply SO2_eq; simpl.
  - transitivity (re h * (re a * re a + im a * im a)); [ring|].
    rewrite Ha. ring.
  - transitivity (im h * (re a * re a + im a * im a)); [ring|].
    rewrite Ha. ring.
Qed.

(** The motion sampled at the three means: the new orientation, and the
    stored position moved by the distance along the heading reached after
    the first rotation. *)
Lemma sampled_motion_means (p : DifferentialDriveModelParam) (last pose : SE2) :
  unit_complex (so2 last) -> unit_complex (so2 pose) ->
  sampled_motion last (SO2_log (first_rotation p last pose))
                 (distance last pose)
                 (SO2_log (second_rotation p last pose))
  = mkSE2 (so2 pose)
          (vadd (translation last)
                (SO2_act (so2 last * first_rotation p last pose)%so2
                         (mkVector2d (distance last pose) 0))).
Proof.
  intros Hl Hp. unfold sampled_motion.
  rewrite !SO2_exp_log
    by auto using unit_first_rotation, unit_second_rotation.
  apply SE2_eq; simpl.
  - unfold second_rotation. apply SO2_recompose; auto using unit_first_rotation.
  - apply Vector2d_eq; simpl; ring.
Qed.

(** Above the threshold the heading reached after the first rotation is the
    direction of the translation. *)
Lemma heading_far (p : DifferentialDriveModelParam) (last pose : SE2) :
  unit_complex (so2 last) ->
  distance_threshold p < distance last pose ->
  SO2_act (so2 last * first_rotation p last pose)%so2
          (mkVector2d (distance last pose) 0)
  = translation_delta last pose.
Proof.
  intros Hl Hfar. rewrite first_rotation_far by assumption.
  rewrite SO2_heading by assumption.
  pose proof (hypot_cos_atan2 (vy (translation_delta last pose))
                              (vx (translation_delta last pose))) as Hc.
  pose proof (hypot_sin_atan2 (vy (translation_delta last pose))
                              (vx (translation_delta last pose))) as Hs.
  unfold SO2_act, SO2_exp, distance, norm.
  apply Vector2d_eq; cbn [vx vy re im]; lra.
Qed.

Lemma heading_near (p : DifferentialDriveModelParam) (last pose : SE2) :
  distance last pose <= distance_threshold p ->
  SO2_act (so2 last * first_rotation p last pose)%so2
          (mkVector2d (distance last pose) 0)
  = SO2_act (so2 last) (mkVector2d (distance last pose) 0).
Proof.
  intros Hnear. rewrite first_rotation_near by assumption.
  now rewrite SO2_mul_1_r.
Qed.

Lemma vadd_delta (last pose : SE2) (v : Vector2d) :
  vadd (translation last) v = translation pose
  <-> v = translation_delta last pose.
Proof.
  unfold vadd, translation_delta, vsub.
  destruct (translation last) as [lx ly], (translation pose) as [px py],
    v as [x y]; simpl.
  split; intros H; injection H as H1 H2; apply Vector2d_eq; simpl; lra.
Qed.

End RoundTrip.

(** ** The properties of the specification *)

Import Cmath Eigen Sophus DifferentialDriveModel.
Import CmathFacts SophusFacts ModelFacts ScenarioFacts RoundTrip.

(** C1: whatever the three values [f], [d], [s] drawn from the first
    rotation, translation and second rotation parameters, [apply_motion]
    returns the product [state * SE2{f, (0,0)} * SE2{s, (d,0)}] of the code,
    and that product is the composition of the state with a rotation by
    [f], a translation by [d] along the local forward axis and a rotation by
    [s], however the three factors are grouped. *)
Theorem apply_motion_rotate_translate_rotate
    (m : t) (state : SE2) (gen gen1 gen2 gen3 : Generator) (f d s : R) :
  distribution gen (first_rotation_params_ m) = (Num f, gen1) ->
  distribution gen1 (translation_params_ m) = (Num d, gen2) ->
  distribution gen2 (second_rotation_params_ m) = (Num s, gen3) ->
  apply_motion m state gen =
    (Some (state * mkSE2 (SO2_exp f) (mkVector2d 0 0)
                 * mkSE2 (SO2_exp s) (mkVector2d d 0))%se2, gen3)
  /\ (state * mkSE2 (SO2_exp f) (mkVector2d 0 0)
            * mkSE2 (SO2_exp s) (mkVector2d d 0))%se2
     = (state * SE2_rot f * SE2_trans d 0 * SE2_rot s)%se2
  /\ (state * SE2_rot f * SE2_trans d 0 * SE2_rot s)%se2
     = (state * (SE2_rot f * (SE2_trans d 0 * SE2_rot s)))%se2.
Proof.
  intros Hf Hd Hs. split; [|split].
  - unfold apply_motion. rewrite Hf, Hd, Hs. reflexivity.
  - unfold SE2_rot, SE2_trans. apply SE2_eq; simpl.
    + apply SO2_eq; simpl; ring.
    + apply Vector2d_eq; simpl; ring.
  - now rewrite !SE2_mul_assoc.
Qed.

Lemma apply_motion_rotate_translate_rotate_witness :
  let m := update_motion Scenario.ahead
             (update_motion Scenario.origin (make Scenario.params)) in
  exists f d s : R,
    apply_motion m Scenario.turned Scenario.ones =
      (Some (Scenario.turned * SE2_rot f * SE2_trans d 0 * SE2_rot s)%se2,
       fun n => Scenario.ones (S (S (S n)))).
Proof.
  cbv zeta.
  set (m := update_motion Scenario.ahead _).
  destruct (update_motion_stddev_real Scenario.params) with
    (m := update_motion Scenario.origin (make Scenario.params))
    (last := Scenario.origin) (pose := Scenario.ahead)
    as (Hf & Hd & Hs); try reflexivity; try (simpl; lra).
  fold m in Hf, Hd, Hs.
  set (sf := sqrt (first_rotation_radicand _ _ _)) in Hf.
  set (sd := sqrt (translation_radicand _ _ _)) in Hd.
  set (ss := sqrt (second_rotation_radicand _ _ _)) in Hs.
  exists (1 * sf + mean (first_rotation_params_ m)),
         (1 * sd + mean (translation_params_ m)),
         (1 * ss + mean (second_rotation_params_ m)).
  destruct (apply_motion_rotate_translate_rotate m Scenario.turned
              Scenario.ones (fun n => Scenario.ones (S n))
              (fun n => Scenario.ones (S (S n)))
              (fun n => Scenario.ones (S (S (S n))))
              (1 * sf + mean (first_rotation_params_ m))
              (1 * sd + mean (translation_params_ m))
              (1 * ss + mean (second_rotation_params_ m)))
    as (Happ & Heq & _).
  - unfold distribution. rewrite Hf. reflexivity.
  - unfold distribution. rewrite Hd. reflexivity.
  - unfold distribution. rewrite Hs. reflexivity.
  - rewrite Happ, Heq. reflexivity.
Defined.

(** C2: on a call of [update_motion] that finds a stored pose, the means
    published are the angle of the first rotation, the distance and the
    angle of the second rotation; each standard deviation is the square
    root ([std::sqrt]) of the weighted sum of a rotation variance and the
    squared distance, the translation one taking the rotation variance of
    [first_rotation * second_rotation]; with non-negative coefficients the
    three square roots are those of the real numbers. *)
Theorem update_motion_noise_parameters (m : t) (last pose : SE2) :
  last_pose_ m = Some last ->
  let p := params_ m in
  let m' := update_motion pose m in
  let first := first_rotation p last pose in
  let second := second_rotation p last pose in
  let combined := (first * second)%so2 in
  let dist := distance last pose in
  let first_var :=
    rotation_noise_from_rotation p * rotation_variance first
    + rotation_noise_from_translation p * (dist * dist) in
  let translation_var :=
    translation_noise_from_translation p * (dist * dist)
    + translation_noise_from_rotation p * rotation_variance combined in
  let second_var :=
    rotation_noise_from_rotation p * rotation_variance second
    + rotation_noise_from_translation p * (dist * dist) in
  (mean (first_rotation_params_ m') = SO2_log first
   /\ mean (translation_params_ m') = dist
   /\ mean (second_rotation_params_ m') = SO2_log second)
  /\ (stddev (first_rotation_params_ m') = cpp_sqrt first_var
      /\ stddev (translation_params_ m') = cpp_sqrt translation_var
      /\ stddev (second_rotation_params_ m') = cpp_sqrt second_var)
  /\ (0 <= rotation_noise_from_rotation p ->
      0 <= rotation_noise_from_translation p ->
      0 <= translation_noise_from_translation p ->
      0 <= translation_noise_from_rotation p ->
      stddev (first_rotation_params_ m') = Num (sqrt first_var)
      /\ stddev (translation_params_ m') = Num (sqrt translation_var)
      /\ stddev (second_rotation_params_ m') = Num (sqrt second_var)).
Proof.
  intros Hlast. cbv zeta.
  rewrite (update_motion_next _ _ _ Hlast).
  cbn [first_rotation_params_ translation_params_ second_rotation_params_
       mean stddev].
  split; [|split].
  - repeat split.
  - repeat split.
  - intros H1 H2 H3 H4.
    destruct (radicands_nonneg (params_ m) H1 H2 H3 H4 last pose)
      as (R1 & R2 & R3).
    repeat split; now apply cpp_sqrt_nonneg.
Qed.

(** C3: on a call of [update_motion] that finds a stored pose, the first
    rotation is the heading [atan2(dy, dx)] of the translation composed with
    the inverse of the stored orientation when the distance is strictly
    above the threshold, and the zero rotation otherwise; the second
    rotation is the new orientation composed with the inverse of the stored
    one and the inverse of the first rotation; the published rotation means
    are the angles of these two rotations. *)
Theorem update_motion_decomposition (m : t) (last pose : SE2) :
  last_pose_ m = Some last ->
  let p := params_ m in
  let dx := vx (translation pose) - vx (translation last) in
  let dy := vy (translation pose) - vy (translation last) in
  let dist := sqrt (dx * dx + dy * dy) in
  let first :=
    if Rlt_dec (distance_threshold p) dist
    then (SO2_exp (atan2 dy dx) * SO2_inverse (so2 last))%so2
    else SO2_identity in
  let second :=
    (so2 pose * SO2_inverse (so2 last) * SO2_inverse first)%so2 in
  distance last pose = dist
  /\ (distance_threshold p < dist ->
      first_rotation p last pose
      = (SO2_exp (atan2 dy dx) * SO2_inverse (so2 last))%so2)
  /\ (dist <= distance_threshold p ->
      first_rotation p last pose = SO2_identity
      /\ SO2_log (first_rotation p last pose) = 0)
  /\ first_rotation p last pose = first
  /\ second_rotation p last pose = second
  /\ mean (first_rotation_params_ (update_motion pose m)) = SO2_log first
  /\ mean (second_rotation_params_ (update_motion pose m)) = SO2_log second
  /\ mean (translation_params_ (update_motion pose m)) = dist.
Proof.
  intros Hlast. cbv zeta.
  assert (first_rotation (params_ m) last pose =
          if Rlt_dec (distance_threshold (params_ m))
               (sqrt ((vx (translation pose) - vx (translation last))
                      * (vx (translation pose) - vx (translation last))
                      + (vy (translation pose) - vy (translation last))
                        * (vy (translation pose) - vy (translation last))))
          then (SO2_exp (atan2 (vy (translation pose) - vy (translation last))
                               (vx (translation pose) - vx (translation last)))
                * SO2_inverse (so2 last))%so2
          else SO2_identity) as Hfirst.
  { unfold first_rotation, distance, norm, translation_delta, vsub; simpl.
    destruct (Rlt_dec _ _); [reflexivity | apply SO2_exp_0]. }
  assert (second_rotation (params_ m) last pose =
          (so2 pose * SO2_inverse (so2 last)
           * SO2_inverse (first_rotation (params_ m) last pose))%so2) as Hsecond
    by reflexivity.
  rewrite (update_motion_next _ _ _ Hlast).
  cbn [first_rotation_params_ translation_params_ second_rotation_params_ mean].
  rewrite Hsecond, Hfirst.
  repeat split.
  - intros Hfar. destruct (Rlt_dec _ _); [reflexivity | lra].
  - destruct (Rlt_dec _ _); [lra | reflexivity].
  - destruct (Rlt_dec _ _); [lra | apply SO2_log_identity].
Qed.

Lemma update_motion_noise_parameters_witness :
  let m := update_motion Scenario.ahead
             (update_motion Scenario.origin (make Scenario.params)) in
  (mean (first_rotation_params_ m) = 0
   /\ mean (translation_params_ m) = 1
   /\ mean (second_rotation_params_ m) = 0)
  /\ stddev (first_rotation_params_ m) = Num (sqrt (1 / 10))
  /\ stddev (translation_params_ m) = Num (sqrt (1 / 10))
  /\ stddev (second_rotation_params_ m) = Num (sqrt (1 / 10)).
Proof.
  cbv zeta.
  destruct (update_motion_noise_parameters
              (update_motion Scenario.origin (make Scenario.params))
              Scenario.origin Scenario.ahead eq_refl)
    as [(Hm1 & Hm2 & Hm3) [_ Hs]].
  change (params_ (update_motion Scenario.origin (make Scenario.params)))
    with Scenario.params in *.
  rewrite first_rotation_origin_ahead, second_rotation_origin_ahead,
    distance_origin_ahead, ?SO2_mul_1_r, ?rotation_variance_identity,
    ?SO2_log_identity in *.
  destruct Hs as (Hs1 & Hs2 & Hs3); try (simpl; lra).
  simpl in Hs1, Hs2, Hs3.
  replace (1 / 10 * 0 + 1 / 10 * (1 * 1)) with (1 / 10) in * by lra.
  replace (1 / 10 * (1 * 1) + 1 / 10 * 0) with (1 / 10) in * by lra.
  repeat split; assumption.
Defined.

Lemma update_motion_decomposition_witness :
  let m := update_motion Scenario.ahead
             (update_motion Scenario.origin (make Scenario.params)) in
  first_rotation Scenario.params Scenario.origin Scenario.ahead
  = (SO2_exp (atan2 (0 - 0) (1 - 0)) * SO2_inverse (SO2_exp 0))%so2
  /\ second_rotation Scenario.params Scenario.origin Scenario.ahead
     = (SO2_exp 0 * SO2_inverse (SO2_exp 0)
        * SO2_inverse (first_rotation Scenario.params Scenario.origin
                         Scenario.ahead))%so2
  /\ mean (first_rotation_params_ m) = 0
  /\ mean (second_rotation_params_ m) = 0
  /\ mean (translation_params_ m) = 1.
Proof.
  cbv zeta.
  destruct (update_motion_decomposition
              (update_motion Scenario.origin (make Scenario.params))
              Scenario.origin Scenario.ahead eq_refl)
    as (Hd & Hfar & _ & Hf & Hs & Hm1 & Hm2 & Hm3).
  change (params_ (update_motion Scenario.origin (make Scenario.params)))
    with Scenario.params in *.
  rewrite <- Hf in Hs, Hm1, Hm2. rewrite <- Hs in Hm2. rewrite <- Hd in Hm3.
  rewrite first_rotation_origin_ahead, SO2_log_identity in Hm1.
  rewrite second_rotation_origin_ahead, SO2_log_identity in Hm2.
  rewrite distance_origin_ahead in Hm3, Hd.
  repeat split; try assumption.
  apply Hfar. rewrite <- Hd. simpl. lra.
Defined.

(** C4, as the code has it: feed [last] and then [pose] to [update_motion]
    and apply the published means with all three standard deviations at
    zero to [last].  The result is [pose] exactly when the distance is
    strictly above the threshold, or the translation points along the
    heading of [last] (no translation at all included).  At or below the
    threshold the first rotation is dropped on purpose, so a translation in
    any other direction is not reproduced. *)
Theorem round_trip_without_noise
    (m0 : t) (last pose : SE2) (gen : Generator) :
  unit_complex (so2 last) -> unit_complex (so2 pose) ->
  let m := update_motion pose (update_motion last m0) in
  fst (apply_motion (without_noise m) last gen) = Some pose
  <-> (distance_threshold (params_ m0) < distance last pose
       \/ SO2_act (so2 last) (mkVector2d (distance last pose) 0)
          = translation_delta last pose).
Proof.
  intros Hl Hp. cbv zeta.
  rewrite apply_motion_without_noise. cbn [fst].
  rewrite (update_motion_next pose last) by apply update_motion_last_pose.
  cbn [first_rotation_params_ translation_params_ second_rotation_params_ mean].
  rewrite update_motion_params, sampled_motion_means by assumption.
  set (p := params_ m0).
  destruct (Rlt_dec (distance_threshold p) (distance last pose)) as [Hfar|Hnear].
  - split; [intros _; now left|]. intros _.
    rewrite heading_far by assumption.
    f_equal. destruct pose as [r v]; simpl. f_equal.
    now apply (proj2 (vadd_delta last (mkSE2 r v) _)).
  - rewrite heading_near by lra. split.
    + intros H. right. apply (proj1 (vadd_delta last pose _)).
      injection H as H. destruct pose as [r v]; simpl in *. congruence.
    + intros [Hfar|Hdir]; [lra|].
      f_equal. destruct pose as [r v]; simpl. f_equal.
      now apply (proj2 (vadd_delta last (mkSE2 r v) _)).
Qed.

Lemma round_trip_without_noise_witness :
  fst (apply_motion
         (without_noise
            (update_motion Scenario.ahead
               (update_motion Scenario.origin (make Scenario.params))))
         Scenario.origin Scenario.ones)
  = Some Scenario.ahead.
Proof.
  apply (round_trip_without_noise (make Scenario.params)
           Scenario.origin Scenario.ahead Scenario.ones).
  - apply unit_exp.
  - apply unit_exp.
  - left. rewrite distance_origin_ahead. simpl. lra.
Defined.

(** C4, as it is written, fails: with the parameters
    [{0.1, 0.1, 0.1, 0.1, 0.01}], from the origin to the pose five
    millimetres to its left, the means applied without noise lead five
    millimetres ahead instead. *)
Lemma round_trip_fails_below_threshold :
  fst (apply_motion
         (without_noise
            (update_motion Scenario.sideways
               (update_motion Scenario.origin (make Scenario.params))))
         Scenario.origin Scenario.ones)
  = Some (pose (1 / 200) 0 0)
  /\ fst (apply_motion
            (without_noise
               (update_motion Scenario.sideways
                  (update_motion Scenario.origin (make Scenario.params))))
            Scenario.origin Scenario.ones)
     <> Some Scenario.sideways.
Proof.
  assert (fst (apply_motion
         (without_noise
            (update_motion Scenario.sideways
               (update_motion Scenario.origin (make Scenario.params))))
         Scenario.origin Scenario.ones)
          = Some (pose (1 / 200) 0 0)) as E.
  { rewrite apply_motion_without_noise. cbn [fst].
    rewrite (update_motion_next Scenario.sideways Scenario.origin)
      by reflexivity.
    cbn [first_rotation_params_ translation_params_ second_rotation_params_
         mean].
    rewrite sampled_motion_means by apply unit_exp.
    rewrite heading_near
      by (rewrite distance_origin_sideways; simpl; lra).
    rewrite distance_origin_sideways. f_equal.
    unfold pose, Scenario.sideways, Scenario.origin. simpl.
    f_equal. rewrite SO2_exp_0. apply Vector2d_eq; simpl; lra. }
  split; [exact E|].
  rewrite E. unfold pose, Scenario.sideways, Sophus.pose.
  intros H. injection H as H1 H2. lra.
Qed.

(** C5: the rotation variance is the square of the smaller of the absolute
    angle of the rotation and the absolute angle of the rotation composed
    with a half turn; hence it does not change when a half turn is added to
    the angle, nor when any rotation is composed with a half turn, and it is
    zero at the zero rotation. *)
Theorem rotation_variance_half_turn_symmetric :
  (forall r : SO2,
      rotation_variance r
      = (Rmin (Rabs (SO2_log r)) (Rabs (SO2_log (r * SO2_exp PI)%so2))) ^ 2)
  /\ (forall theta : R,
         rotation_variance (SO2_exp (theta + PI))
         = rotation_variance (SO2_exp theta))
  /\ (forall (theta : R) (k : nat),
         rotation_variance (SO2_exp (theta + 2 * INR k * PI))
         = rotation_variance (SO2_exp theta))
  /\ (forall r : SO2,
         rotation_variance (r * SO2_exp PI)%so2 = rotation_variance r)
  /\ rotation_variance (SO2_exp 0) = 0.
Proof.
  repeat split.
  - intros r. unfold rotation_variance. cbv zeta. ring.
  - intros theta. rewrite SO2_exp_plus. apply rotation_variance_half_turn.
  - intros theta k. f_equal. unfold SO2_exp.
    now rewrite cos_period, sin_period.
  - apply rotation_variance_half_turn.
  - rewrite SO2_exp_0. apply rotation_variance_identity.
Qed.

(** C6: the first call of [update_motion] on a fresh instance leaves the
    three parameter pairs at mean 0 and standard deviation 0, and
    [latest_motion_update] then returns the pose that was passed in. *)
Theorem first_update_keeps_noise_parameters
    (params : DifferentialDriveModelParam) (pose : SE2) :
  let m := update_motion pose (make params) in
  first_rotation_params_ m = mkDistributionParam 0 (Num 0)
  /\ translation_params_ m = mkDistributionParam 0 (Num 0)
  /\ second_rotation_params_ m = mkDistributionParam 0 (Num 0)
  /\ first_rotation_params_ m = first_rotation_params_ (make params)
  /\ translation_params_ m = translation_params_ (make params)
  /\ second_rotation_params_ m = second_rotation_params_ (make params)
  /\ fst (latest_motion_update m) = Some pose.
Proof. cbv zeta. repeat split. Qed.

(** C7: every call [update_motion(p)] stores [p], whether or not a pose was
    stored before and whichever branch ran, so that [latest_motion_update]
    returns it; on a fresh instance [latest_motion_update] returns nothing;
    and [latest_motion_update] leaves the model as it was. *)
Theorem update_motion_stores_pose :
  (forall (p : SE2) (m : t),
      fst (latest_motion_update (update_motion p m)) = Some p)
  /\ (forall params : DifferentialDriveModelParam,
         fst (latest_motion_update (make params)) = None)
  /\ (forall m : t, snd (latest_motion_update m) = m).
Proof.
  repeat split.
Qed.

(** C8: on an update whose distance is at or below the threshold, the mean
    of the first rotation is exactly 0; the mean of the second rotation is
    the angle, between [-PI] (excluded) and [PI] (included), of the new
    orientation relative to the stored one, so it is [theta] itself when the
    robot turned by [theta] within that range; and the mean of the
    translation is the distance, between 0 and the threshold. *)
Theorem in_place_rotation_means (m : t) (last pose : SE2) :
  last_pose_ m = Some last ->
  unit_complex (so2 last) -> unit_complex (so2 pose) ->
  distance last pose <= distance_threshold (params_ m) ->
  let m' := update_motion pose m in
  mean (first_rotation_params_ m') = 0
  /\ (SO2_exp (mean (second_rotation_params_ m'))
      = (so2 pose * SO2_inverse (so2 last))%so2
      /\ - PI < mean (second_rotation_params_ m') <= PI)
  /\ (forall a theta : R,
         so2 last = SO2_exp a -> so2 pose = SO2_exp (a + theta) ->
         - PI < theta <= PI ->
         mean (second_rotation_params_ m') = theta)
  /\ (mean (translation_params_ m') = distance last pose
      /\ 0 <= mean (translation_params_ m') <= distance_threshold (params_ m)).
Proof.
  intros Hlast Hl Hp Hnear. cbv zeta.
  rewrite (update_motion_next _ _ _ Hlast).
  cbn [first_rotation_params_ translation_params_ second_rotation_params_ mean].
  assert (second_rotation (params_ m) last pose
          = (so2 pose * SO2_inverse (so2 last))%so2) as Hsecond.
  { unfold second_rotation. rewrite first_rotation_near by assumption.
    now rewrite SO2_inverse_identity, SO2_mul_1_r. }
  rewrite first_rotation_near by assumption. rewrite Hsecond.
  split; [apply SO2_log_identity|].
  split; [split|split].
  - apply SO2_exp_log. auto with so2.
  - apply SO2_log_bound.
  - intros a theta Ha Hb Hrange. rewrite Ha, Hb.
    rewrite SO2_inverse_exp, <- SO2_exp_plus.
    replace (a + theta + - a) with theta by ring.
    now apply SO2_log_exp.
  - split; [reflexivity|]. split; [apply distance_nonneg | assumption].
Qed.

(** The scenario of C8: with the parameters [{0.1, 0.1, 0.1, 0.1, 0.01}]
    and the poses [(0,0,0)], [(1,0,0)], [(1,0,PI/2)] fed in this order, the
    means are 0 for the first rotation, [PI/2] for the second rotation and 0
    for the translation. *)
Lemma in_place_rotation_scenario :
  let m := feed [Scenario.origin; Scenario.ahead; Scenario.turned]
                (make Scenario.params) in
  mean (first_rotation_params_ m) = 0
  /\ mean (second_rotation_params_ m) = PI / 2
  /\ mean (translation_params_ m) = 0.
Proof.
  cbv zeta.
  assert (distance Scenario.ahead Scenario.turned
          <= distance_threshold Scenario.params) as Hnear.
  { rewrite distance_ahead_turned. simpl. lra. }
  destruct (in_place_rotation_means
              (feed [Scenario.origin; Scenario.ahead] (make Scenario.params))
              Scenario.ahead Scenario.turned eq_refl
              (unit_exp 0) (unit_exp (PI / 2)) Hnear)
    as (H1 & _ & H2 & H3 & _).
  split; [exact H1|]. split.
  - apply (H2 0 (PI / 2)).
    + reflexivity.
    + unfold Scenario.turned, pose; simpl. f_equal. ring.
    + pose proof PI_RGT_0. lra.
  - rewrite <- distance_ahead_turned. exact H3.
Defined.

(** C9: the constructor accepts every parameter value and stores it as it
    is, negative coefficients included.  When a coefficient is negative,
    some motion between two poses makes the argument of one of the three
    square roots negative: the standard deviation published is then not a
    number, no error is raised, and every motion sampled from the model has
    an entry that is not a number. *)
Theorem negative_coefficient_unchecked (params : DifferentialDriveModelParam) :
  (params_ (make params) = params /\ last_pose_ (make params) = None)
  /\ (negative_coefficient params ->
      exists last pose : SE2,
        unit_complex (so2 last) /\ unit_complex (so2 pose)
        /\ (first_rotation_radicand params last pose < 0
            \/ translation_radicand params last pose < 0
            \/ second_rotation_radicand params last pose < 0)
        /\ (let m := update_motion pose (update_motion last (make params)) in
            (stddev (first_rotation_params_ m) = NaN
             \/ stddev (translation_params_ m) = NaN
             \/ stddev (second_rotation_params_ m) = NaN)
            /\ forall (state : SE2) (gen : Generator),
                fst (apply_motion m state gen) = None)).
Proof.
  split; [split; reflexivity|].
  intros Hneg.
  assert (forall last pose : SE2,
             first_rotation_radicand params last pose < 0
             \/ translation_radicand params last pose < 0
             \/ second_rotation_radicand params last pose < 0 ->
             let m := update_motion pose (update_motion last (make params)) in
             (stddev (first_rotation_params_ m) = NaN
              \/ stddev (translation_params_ m) = NaN
              \/ stddev (second_rotation_params_ m) = NaN)
             /\ forall (state : SE2) (gen : Generator),
                 fst (apply_motion m state gen) = None) as Hnan.
  { intros last pose Hrad. cbv zeta.
    assert (stddev (first_rotation_params_
                      (update_motion pose (update_motion last (make params))))
            = NaN
            \/ stddev (translation_params_
                         (update_motion pose (update_motion last (make params))))
               = NaN
            \/ stddev (second_rotation_params_
                         (update_motion pose (update_motion last (make params))))
               = NaN) as H.
    { rewrite (update_motion_next pose last) by reflexivity.
      cbn [first_rotation_params_ translation_params_ second_rotation_params_
           stddev].
      change (params_ (update_motion last (make params))) with params.
      destruct Hrad as [H|[H|H]];
        [left | right; left | right; right]; now apply cpp_sqrt_neg. }
    split; [exact H|]. intros state gen. now apply apply_motion_nan. }
  pose proof PI_RGT_0 as Hpi.
  assert (0 < PI / 2 * (PI / 2)) as Hq by (apply Rmult_lt_0_compat; lra).
  destruct Hneg as [H|[H|[H|H]]].
  - (* rotation noise from rotation: turn on the spot *)
    exists Scenario.origin, Scenario.spun.
    repeat split; [apply unit_exp | apply unit_exp | | apply Hnan | apply Hnan];
      right; right;
      unfold second_rotation_radicand, distance_variance;
      rewrite second_rotation_origin_quarter, rotation_variance_quarter,
        distance_origin_quarter; nra.
  - (* rotation noise from translation: drive straight ahead *)
    exists Scenario.origin, Scenario.ahead.
    repeat split; [apply unit_exp | apply unit_exp | | apply Hnan | apply Hnan];
      left;
      unfold first_rotation_radicand, distance_variance;
      rewrite first_rotation_origin_ahead, rotation_variance_identity,
        distance_origin_ahead; lra.
  - (* translation noise from translation: drive straight ahead *)
    exists Scenario.origin, Scenario.ahead.
    repeat split; [apply unit_exp | apply unit_exp | | apply Hnan | apply Hnan];
      right; left;
      unfold translation_radicand, distance_variance, combined_rotation;
      rewrite first_rotation_origin_ahead, second_rotation_origin_ahead,
        SO2_mul_1_r, rotation_variance_identity, distance_origin_ahead; lra.
  - (* translation noise from rotation: turn on the spot *)
    exists Scenario.origin, Scenario.spun.
    repeat split; [apply unit_exp | apply unit_exp | | apply Hnan | apply Hnan];
      right; left;
      unfold translation_radicand, distance_variance, combined_rotation;
      rewrite first_rotation_origin_quarter, second_rotation_origin_quarter,
        SO2_mul_1_l, rotation_variance_quarter, distance_origin_quarter; nra.
Qed.

Lemma negative_coefficient_unchecked_witness :
  params_ (make Scenario.negative_params) = Scenario.negative_params
  /\ exists last pose : SE2,
      let m := update_motion pose
                 (update_motion last (make Scenario.negative_params)) in
      (stddev (first_rotation_params_ m) = NaN
       \/ stddev (translation_params_ m) = NaN
       \/ stddev (second_rotation_params_ m) = NaN)
      /\ fst (apply_motion m Scenario.origin Scenario.ones) = None.
Proof.
  destruct (negative_coefficient_unchecked Scenario.negative_params)
    as [[Hstored _] Hneg].
  destruct Hneg as (last & pose & _ & _ & _ & Hnan & Hsample).
  - left. simpl. lra.
  - split; [exact Hstored|].
    exists last, pose. split; [exact Hnan | apply Hsample].
Defined.

(** C10: before any call of [update_motion], and equally after exactly one
    call, the three parameter pairs are mean 0 and standard deviation 0, so
    [apply_motion] returns the state it was given, whatever the state and
    whatever the generator yields; the generator advances by three draws. *)
Theorem apply_motion_identity_before_motion
    (params : DifferentialDriveModelParam) (state : SE2) (gen : Generator) :
  (first_rotation_params_ (make params) = mkDistributionParam 0 (Num 0)
   /\ translation_params_ (make params) = mkDistributionParam 0 (Num 0)
   /\ second_rotation_params_ (make params) = mkDistributionParam 0 (Num 0))
  /\ apply_motion (make params) state gen
     = (Some state, fun n => gen (S (S (S n))))
  /\ (forall pose : SE2,
         apply_motion (update_motion pose (make params)) state gen
         = (Some state, fun n => gen (S (S (S n))))).
Proof.
  assert (apply_motion (make params) state gen
          = (Some state, fun n => gen (S (S (S n))))) as H.
  { unfold apply_motion, make, distribution.
    cbn [first_rotation_params_ translation_params_ second_rotation_params_
         mean stddev].
    do 2 f_equal. unfold sampled_motion.
    replace (gen 0%nat * 0 + 0) with 0 by ring.
    replace (gen 1%nat * 0 + 0) with 0 by ring.
    replace (gen 2%nat * 0 + 0) with 0 by ring.
    rewrite SO2_exp_0. now rewrite !SE2_mul_1_r. }
  split; [repeat split|]. split; [exact H|].
  intros pose. exact H.
Qed.

(** ** Further facts: directions, frames and half turns *)

Module GeometryFacts.
Import Cmath Eigen Sophus DifferentialDriveModel.
Import CmathFacts SophusFacts ModelFacts RoundTrip.

(** The rotation to the angle of a non-zero vector is its direction. *)
Lemma SO2_exp_atan2_direction (x y : R) :
  0 < sqrt (x * x + y * y) ->
  SO2_exp (atan2 y x)
  = mkSO2 (x / sqrt (x * x + y * y)) (y / sqrt (x * x + y * y)).
Proof.
  intros Hn.
  pose proof (hypot_cos_atan2 y x) as Hc.
  pose proof (hypot_sin_atan2 y x) as Hs.
  unfold SO2_exp. apply SO2_eq; simpl.
  - apply (Rmult_eq_reg_l (sqrt (x * x + y * y))); [|lra].
    rewrite Hc. field. lra.
  - apply (Rmult_eq_reg_l (sqrt (x * x + y * y))); [|lra].
    rewrite Hs. field. lra.
Qed.

(** A positive multiple of a unit complex number points the way it does. *)
Lemma hypot_scaled (r : SO2) (k : R) :
  unit_complex r -> 0 <= k ->
  sqrt (k * re r * (k * re r) + k * im r * (k * im r)) = k.
Proof.
  unfold unit_complex. intros Hr Hk.
  replace (k * re r * (k * re r) + k * im r * (k * im r))
    with (k * k * (re r * re r + im r * im r)) by ring.
  rewrite Hr, Rmult_1_r. now apply sqrt_square.
Qed.

Lemma SO2_exp_atan2_scaled (r : SO2) (k : R) :
  unit_complex r -> 0 < k ->
  SO2_exp (atan2 (k * im r) (k * re r)) = r.
Proof.
  intros Hr Hk.
  pose proof (hypot_scaled r k Hr (Rlt_le _ _ Hk)) as Hn.
  rewrite SO2_exp_atan2_direction by (rewrite Hn; exact Hk).
  rewrite Hn. apply SO2_eq; simpl; field; lra.
Qed.

(** A rotation of the plane keeps lengths. *)
Lemma norm_SO2_act (g : SO2) (v : Vector2d) :
  unit_complex g -> norm (SO2_act g v) = norm v.
Proof.
  unfold unit_complex, norm, SO2_act. intros Hg. simpl. f_equal.
  transitivity ((re g * re g + im g * im g) * (vx v * vx v + vy v * vy v));
    [ring|].
  rewrite Hg. ring.
Qed.

(** Cancelling a common left factor of two rotations. *)
Lemma SO2_cancel_frame (g a b : SO2) :
  unit_complex g ->
  (g * a * SO2_inverse (g * b))%so2 = (a * SO2_inverse b)%so2.
Proof.
  unfold unit_complex. intros Hg. apply SO2_eq; simpl.
  - transitivity ((re a * re b + im a * im b)
                  * (re g * re g + im g * im g)); [ring|].
    rewrite Hg. ring.
  - transitivity ((im a * re b - re a * im b)
                  * (re g * re g + im g * im g)); [ring|].
    rewrite Hg. ring.
Qed.

(** The angle of a rotation composed with a half turn. *)
Lemma SO2_log_half_turn (r : SO2) :
  unit_complex r ->
  SO2_log (r * SO2_exp PI)%so2
  = if Rlt_dec 0 (SO2_log r) then SO2_log r - PI else SO2_log r + PI.
Proof.
  intros Hr. pose proof (SO2_log_bound r) as [Hlo Hhi].
  pose proof PI_RGT_0 as Hpi.
  rewrite <- (SO2_exp_log r Hr) at 1. rewrite <- SO2_exp_plus.
  destruct (Rlt_dec 0 (SO2_log r)) as [Hpos|Hneg].
  - replace (SO2_exp (SO2_log r + PI)) with (SO2_exp (SO2_log r - PI)).
    + apply SO2_log_exp. lra.
    + unfold SO2_exp, Rminus.
      rewrite !cos_plus, !sin_plus, cos_neg, sin_neg, sin_PI.
      apply SO2_eq; simpl; ring.
  - apply SO2_log_exp. lra.
Qed.

(** The rotation variance in closed form: the square of the distance of
    the angle to the nearest multiple of a half turn. *)
Lemma rotation_variance_closed (r : SO2) :
  unit_complex r ->
  rotation_variance r
  = Rmin (Rabs (SO2_log r)) (PI - Rabs (SO2_log r))
    * Rmin (Rabs (SO2_log r)) (PI - Rabs (SO2_log r)).
Proof.
  intros Hr. pose proof (SO2_log_bound r) as [Hlo Hhi].
  unfold rotation_variance. cbv zeta.
  rewrite SO2_log_half_turn by assumption.
  destruct (Rlt_dec 0 (SO2_log r)) as [Hpos|Hneg].
  - rewrite (Rabs_right (SO2_log r)) by lra.
    rewrite (Rabs_left1 (SO2_log r - PI)) by lra.
    replace (- (SO2_log r - PI)) with (PI - SO2_log r) by ring. reflexivity.
  - rewrite (Rabs_left1 (SO2_log r)) by lra.
    rewrite (Rabs_right (SO2_log r + PI)) by lra.
    replace (PI - - SO2_log r) with (SO2_log r + PI) by ring. reflexivity.
Qed.

End GeometryFacts.

(** ** Further properties of the code *)

Import GeometryFacts.

(** X1: for every rotation the rotation variance is the square of the
    smaller of [|theta|] and [PI - |theta|], where [theta] is the angle of
    the rotation; it lies between 0 and [(PI/2)^2]; and it is zero exactly
    for the zero rotation and for the half turn. *)
Theorem rotation_variance_range (r : SO2) :
  unit_complex r ->
  rotation_variance r
  = (Rmin (Rabs (SO2_log r)) (PI - Rabs (SO2_log r))) ^ 2
  /\ 0 <= rotation_variance r <= (PI / 2) ^ 2
  /\ (rotation_variance r = 0 <-> r = SO2_identity \/ r = SO2_exp PI).
Proof.
  intros Hr. pose proof PI_RGT_0 as Hpi.
  pose proof (SO2_log_bound r) as [Hlo Hhi].
  pose proof (rotation_variance_closed r Hr) as Hrv.
  set (delta := Rmin (Rabs (SO2_log r)) (PI - Rabs (SO2_log r))) in *.
  assert (0 <= delta <= PI / 2) as [Hd0 Hd1].
  { unfold delta, Rmin, Rabs.
    destruct (Rcase_abs (SO2_log r)); destruct (Rle_dec _ _); lra. }
  split; [rewrite Hrv; ring|]. split; [rewrite Hrv; nra|].
  split.
  - intros Hz. rewrite Hrv in Hz.
    assert (delta = 0) as Hdelta by nra.
    unfold delta, Rmin, Rabs in Hdelta.
    rewrite <- (SO2_exp_log r Hr).
    destruct (Rcase_abs (SO2_log r)); destruct (Rle_dec _ _).
    + left. replace (SO2_log r) with 0 by lra. apply SO2_exp_0.
    + lra.
    + left. replace (SO2_log r) with 0 by lra. apply SO2_exp_0.
    + right. f_equal. lra.
  - intros [E|E]; subst r.
    + apply rotation_variance_identity.
    + rewrite <- (SO2_mul_1_l (SO2_exp PI)), rotation_variance_half_turn.
      apply rotation_variance_identity.
Qed.

Lemma rotation_variance_range_witness :
  rotation_variance (mkSO2 0 1)
  = (Rmin (Rabs (SO2_log (mkSO2 0 1))) (PI - Rabs (SO2_log (mkSO2 0 1)))) ^ 2
  /\ 0 <= rotation_variance (mkSO2 0 1) <= (PI / 2) ^ 2.
Proof.
  assert (unit_complex (mkSO2 0 1)) as Hu by (unfold unit_complex; simpl; ring).
  destruct (rotation_variance_range (mkSO2 0 1) Hu) as (H1 & H2 & _).
  split; assumption.
Defined.

(** *** Motion straight ahead and straight back *)

Module StraightFacts.
Import Cmath Eigen Sophus DifferentialDriveModel.
Import CmathFacts SophusFacts ModelFacts RoundTrip GeometryFacts.

Section Straight.
Variable p : DifferentialDriveModelParam.
Variable last : SE2.
Hypothesis unit_last : unit_complex (so2 last).







End Straight.


Lemma SO2_log_half_turn_exact : SO2_log (SO2_exp PI) = PI.
Proof. apply SO2_log_exp. pose proof PI_RGT_0. lra. Qed.




End StraightFacts.

Import StraightFacts.




(** *** Invariants of the model along any sequence of updates *)

Module InvariantFacts.
Import Cmath Eigen Sophus DifferentialDriveModel.
Import CmathFacts SophusFacts ModelFacts.

(** A property every [update_motion] keeps is kept by every sequence. *)
Lemma feed_invariant (P : t -> Prop) :
  (forall (m : t) (pose : SE2), P m -> P (update_motion pose m)) ->
  forall (poses : list SE2) (m : t), P m -> P (feed poses m).
Proof.
  intros Hstep poses. unfold feed.
  induction poses as [|pose poses IH]; intros m Hm; simpl.
  - exact Hm.
  - apply IH, Hstep, Hm.
Qed.

Lemma feed_snoc (poses : list SE2) (pose : SE2) (m : t) :
  feed (poses ++ [pose]) m = update_motion pose (feed poses m).
Proof. unfold feed. now rewrite fold_left_app. Qed.

Lemma feed_params (poses : list SE2) (m : t) :
  params_ (feed poses m) = params_ m.
Proof.
  apply (feed_invariant (fun m' => params_ m' = params_ m)); [|reflexivity].
  intros m' pose H. now rewrite update_motion_params.
Qed.




Lemma means_in_range_step (m : t) (pose : SE2) :
  means_in_range m -> means_in_range (update_motion pose m).
Proof.
  intros Hm.
  destruct (last_pose_ m) as [last|] eqn:Hlast.
  - rewrite (update_motion_next _ _ _ Hlast).
    unfold means_in_range.
    cbn [first_rotation_params_ translation_params_ second_rotation_params_
         mean].
    split; [apply SO2_log_bound|].
    split; [apply distance_nonneg | apply SO2_log_bound].
  - rewrite (update_motion_first _ _ Hlast). exact Hm.
Qed.


End InvariantFacts.

Import InvariantFacts.



(** X4: after any sequence of calls of [update_motion] on a fresh instance,
    whatever the parameters and the poses, the two rotation means lie
    between [-PI] (excluded) and [PI] (included) and the translation mean is
    not negative. *)
Theorem means_stay_in_range
    (params : DifferentialDriveModelParam) (poses : list SE2) :
  means_in_range (feed poses (make params)).
Proof.
  apply feed_invariant.
  - intros m pose. apply means_in_range_step.
  - pose proof PI_RGT_0. unfold means_in_range, make; simpl. lra.
Qed.

(** *** A robot that did not move, and the pose a sample leads to *)

Lemma distance_self (pose : SE2) : distance pose pose = 0.
Proof.
  unfold distance, norm, translation_delta, vsub; simpl.
  match goal with |- sqrt ?x = 0 => replace x with 0 by ring end.
  apply sqrt_0.
Qed.

Lemma sampled_motion_zero (state : SE2) : sampled_motion state 0 0 0 = state.
Proof.
  unfold sampled_motion. rewrite SO2_exp_0. now rewrite !SE2_mul_1_r.
Qed.

Lemma apply_motion_zero_noise (m : t) (state : SE2) (gen : Generator) :
  first_rotation_params_ m = mkDistributionParam 0 (Num 0) ->
  translation_params_ m = mkDistributionParam 0 (Num 0) ->
  second_rotation_params_ m = mkDistributionParam 0 (Num 0) ->
  apply_motion m state gen = (Some state, fun n => gen (S (S (S n)))).
Proof.
  intros H1 H2 H3. unfold apply_motion. rewrite H1, H2, H3.
  rewrite !distribution_zero. now rewrite sampled_motion_zero.
Qed.

(** X5: with a threshold that is not negative, a call of [update_motion]
    with the pose already stored (the robot did not move) publishes mean 0
    and standard deviation 0 three times, whatever the coefficients, and
    [apply_motion] then returns every state unchanged. *)
Theorem stationary_update_is_noiseless (m : t) (pose : SE2) :
  last_pose_ m = Some pose -> unit_complex (so2 pose) ->
  0 <= distance_threshold (params_ m) ->
  let m' := update_motion pose m in
  first_rotation_params_ m' = mkDistributionParam 0 (Num 0)
  /\ translation_params_ m' = mkDistributionParam 0 (Num 0)
  /\ second_rotation_params_ m' = mkDistributionParam 0 (Num 0)
  /\ forall (state : SE2) (gen : Generator),
      apply_motion m' state gen = (Some state, fun n => gen (S (S (S n)))).
Proof.
  intros Hlast Hu Hthr. cbv zeta.
  assert (first_rotation (params_ m) pose pose = SO2_identity) as Hfirst.
  { apply first_rotation_near. now rewrite distance_self. }
  assert (second_rotation (params_ m) pose pose = SO2_identity) as Hsecond.
  { unfold second_rotation.
    rewrite Hfirst, SO2_mul_inverse_r by assumption.
    now rewrite SO2_inverse_identity, SO2_mul_1_r. }
  assert (first_rotation_params_ (update_motion pose m)
          = mkDistributionParam 0 (Num 0)
          /\ translation_params_ (update_motion pose m)
             = mkDistributionParam 0 (Num 0)
          /\ second_rotation_params_ (update_motion pose m)
             = mkDistributionParam 0 (Num 0)) as (H1 & H2 & H3).
  { rewrite (update_motion_next _ _ _ Hlast).
    cbn [first_rotation_params_ translation_params_ second_rotation_params_].
    unfold first_rotation_radicand, translation_radicand,
      second_rotation_radicand, combined_rotation, distance_variance.
    rewrite Hfirst, Hsecond, SO2_mul_1_r, rotation_variance_identity,
      SO2_log_identity, distance_self.
    rewrite !Rmult_0_r, Rplus_0_r, cpp_sqrt_0. repeat split. }
  repeat split; try assumption.
  intros state gen. now apply apply_motion_zero_noise.
Qed.

Lemma stationary_update_is_noiseless_witness :
  apply_motion
    (update_motion Scenario.turned
       (feed [Scenario.origin; Scenario.ahead; Scenario.turned]
             (make Scenario.params)))
    Scenario.ahead Scenario.ones
  = (Some Scenario.ahead, fun n => Scenario.ones (S (S (S n)))).
Proof.
  apply (stationary_update_is_noiseless
           (feed [Scenario.origin; Scenario.ahead; Scenario.turned]
                 (make Scenario.params)) Scenario.turned).
  - reflexivity.
  - apply unit_exp.
  - simpl. lra.
Defined.



(** X7: [apply_motion] acts in the frame of the particle: moving the state
    by a rigid transform [g] beforehand moves the result by [g], and the
    generator is consumed alike. *)
Theorem apply_motion_equivariant
    (m : t) (g state : SE2) (gen : Generator) :
  apply_motion m (g * state)%se2 gen
  = (option_map (SE2_mul g) (fst (apply_motion m state gen)),
     snd (apply_motion m state gen)).
Proof.
  unfold apply_motion, distribution.
  destruct (stddev (first_rotation_params_ m)),
    (stddev (translation_params_ m)),
    (stddev (second_rotation_params_ m)); simpl; try reflexivity.
  unfold sampled_motion. now rewrite !SE2_mul_assoc.
Qed.

(** *** The odometry frame does not matter *)

Module FrameFacts.
Import Cmath Eigen Sophus DifferentialDriveModel.
Import CmathFacts SophusFacts ModelFacts GeometryFacts.

Section Frame.
Variable p : DifferentialDriveModelParam.
Variables g last pose : SE2.
Hypothesis unit_g : unit_complex (so2 g).

Lemma delta_frame :
  translation_delta (g * last)%se2 (g * pose)%se2
  = SO2_act (so2 g) (translation_delta last pose).
Proof. unfold translation_delta, vsub. apply Vector2d_eq; simpl; ring. Qed.

Lemma distance_frame :
  distance (g * last)%se2 (g * pose)%se2 = distance last pose.
Proof. unfold distance. rewrite delta_frame. now apply norm_SO2_act. Qed.

Lemma heading_frame (v : Vector2d) :
  0 < norm v ->
  SO2_exp (atan2 (vy (SO2_act (so2 g) v)) (vx (SO2_act (so2 g) v)))
  = (so2 g * SO2_exp (atan2 (vy v) (vx v)))%so2.
Proof.
  intros Hn.
  pose proof (norm_SO2_act (so2 g) v unit_g) as Hrot.
  unfold norm in Hn, Hrot.
  rewrite !SO2_exp_atan2_direction by (rewrite ?Hrot; exact Hn).
  rewrite Hrot. apply SO2_eq; simpl; field; lra.
Qed.

Lemma first_rotation_frame :
  0 <= distance_threshold p ->
  first_rotation p (g * last)%se2 (g * pose)%se2 = first_rotation p last pose.
Proof.
  intros Hthr. unfold first_rotation. rewrite distance_frame.
  destruct (Rlt_dec (distance_threshold p) (distance last pose)) as [Hfar|];
    [|reflexivity].
  rewrite delta_frame, heading_frame by (fold (distance last pose); lra).
  cbn [so2 SE2_mul]. now apply SO2_cancel_frame.
Qed.

Lemma second_rotation_frame :
  0 <= distance_threshold p ->
  second_rotation p (g * last)%se2 (g * pose)%se2
  = second_rotation p last pose.
Proof.
  intros Hthr. unfold second_rotation.
  rewrite first_rotation_frame by assumption. cbn [so2 SE2_mul].
  now rewrite SO2_cancel_frame.
Qed.
End Frame.

End FrameFacts.

Import FrameFacts.

(** X8: the published noise parameters depend on the motion only, not on
    the frame the odometry is expressed in: with a threshold that is not
    negative, two models with the same parameters, whose stored poses
    differ by a rigid transform [g] on the left, publish the same three
    parameter pairs when the new poses differ by [g] as well. *)
Theorem update_motion_frame_invariant (m m' : t) (g last pose : SE2) :
  unit_complex (so2 g) ->
  0 <= distance_threshold (params_ m) ->
  params_ m' = params_ m ->
  last_pose_ m = Some last ->
  last_pose_ m' = Some (g * last)%se2 ->
  first_rotation_params_ (update_motion (g * pose)%se2 m')
  = first_rotation_params_ (update_motion pose m)
  /\ translation_params_ (update_motion (g * pose)%se2 m')
     = translation_params_ (update_motion pose m)
  /\ second_rotation_params_ (update_motion (g * pose)%se2 m')
     = second_rotation_params_ (update_motion pose m).
Proof.
  intros Hg Hthr Hp Hlast Hlast'.
  rewrite (update_motion_next _ _ _ Hlast), (update_motion_next _ _ _ Hlast').
  cbn [first_rotation_params_ translation_params_ second_rotation_params_].
  rewrite Hp.
  unfold first_rotation_radicand, translation_radicand,
    second_rotation_radicand, combined_rotation, distance_variance.
  rewrite first_rotation_frame, second_rotation_frame, distance_frame
    by assumption.
  repeat split.
Qed.

Lemma update_motion_frame_invariant_witness :
  first_rotation_params_
    (update_motion (Scenario.turned * Scenario.ahead)%se2
       (update_motion (Scenario.turned * Scenario.origin)%se2
          (make Scenario.params)))
  = first_rotation_params_
      (update_motion Scenario.ahead
         (update_motion Scenario.origin (make Scenario.params))).
Proof.
  apply (update_motion_frame_invariant
           (update_motion Scenario.origin (make Scenario.params))
           (update_motion (Scenario.turned * Scenario.origin)%se2
              (make Scenario.params))
           Scenario.turned Scenario.origin Scenario.ahead).
  - apply unit_exp.
  - simpl. lra.
  - reflexivity.
  - reflexivity.
  - reflexivity.
Defined.

(** *** What the model remembers, and turning on the spot *)

(** X9: the model remembers nothing beyond the configured parameters and
    the previous pose: whatever poses were fed before, after the poses [a]
    and [b] the model is the one a fresh instance with the same parameters
    reaches on [a] and [b] alone; and no sequence of updates changes the
    configured parameters. *)
Theorem only_last_two_poses_matter (m : t) (poses : list SE2) (a b : SE2) :
  feed (poses ++ [a; b]) m = feed [a; b] (make (params_ m))
  /\ params_ (feed poses m) = params_ m.
Proof.
  split; [|apply feed_params].
  change (poses ++ [a; b]) with (poses ++ [a] ++ [b]).
  rewrite app_assoc, !feed_snoc.
  change (feed [a; b] (make (params_ m)))
    with (update_motion b (update_motion a (make (params_ m)))).
  rewrite (update_motion_next b a (update_motion a (feed poses m)))
    by apply update_motion_last_pose.
  rewrite (update_motion_next b a (update_motion a (make (params_ m))))
    by apply update_motion_last_pose.
  now rewrite !update_motion_params, feed_params.
Qed.

(** X10: the combined rotation is the change of orientation between the
    two poses, on either branch of the threshold test; so the standard
    deviation of the translation depends on the two poses only through
    their distance and their relative orientation. *)
Theorem translation_noise_ignores_threshold (m : t) (last pose : SE2) :
  last_pose_ m = Some last -> unit_complex (so2 last) ->
  let p := params_ m in
  let dist := distance last pose in
  combined_rotation p last pose = (so2 pose * SO2_inverse (so2 last))%so2
  /\ stddev (translation_params_ (update_motion pose m))
     = cpp_sqrt (translation_noise_from_translation p * (dist * dist)
                 + translation_noise_from_rotation p
                   * rotation_variance (so2 pose * SO2_inverse (so2 last))%so2).
Proof.
  intros Hlast Hu. cbv zeta.
  assert (combined_rotation (params_ m) last pose
          = (so2 pose * SO2_inverse (so2 last))%so2) as Hc.
  { unfold combined_rotation, second_rotation.
    apply SO2_heading. now apply unit_first_rotation. }
  split; [exact Hc|].
  rewrite (update_motion_next _ _ _ Hlast). cbn [translation_params_ stddev].
  unfold translation_radicand, distance_variance. now rewrite Hc.
Qed.

Lemma translation_noise_ignores_threshold_witness :
  combined_rotation Scenario.params Scenario.ahead Scenario.turned
  = (SO2_exp (PI / 2) * SO2_inverse (SO2_exp 0))%so2.
Proof.
  apply (translation_noise_ignores_threshold
           (feed [Scenario.origin; Scenario.ahead] (make Scenario.params))
           Scenario.ahead Scenario.turned eq_refl (unit_exp 0)).
Defined.

Lemma distance_same_translation (last pose : SE2) :
  translation pose = translation last -> distance last pose = 0.
Proof.
  intros H. unfold distance, norm, translation_delta, vsub. rewrite H. simpl.
  match goal with |- sqrt ?x = 0 => replace x with 0 by ring end.
  apply sqrt_0.
Qed.

(** X11: turning on the spot, with a threshold that is not negative: the
    first rotation gets mean 0 and standard deviation 0, so it is sampled
    as exactly 0; the standard deviations of the translation and of the
    second rotation are the square roots of [translation_noise_from_rotation]
    and [rotation_noise_from_rotation] times [delta^2], where [delta] is the
    smaller of [|theta|] and [PI - |theta|] and [theta] is the angle turned;
    with non-negative coefficients these are [sqrt alpha * delta]. *)
Theorem turn_on_the_spot_noise (m : t) (last pose : SE2) :
  last_pose_ m = Some last ->
  unit_complex (so2 last) -> unit_complex (so2 pose) ->
  translation pose = translation last ->
  0 <= distance_threshold (params_ m) ->
  let p := params_ m in
  let m' := update_motion pose m in
  let theta := SO2_log (so2 pose * SO2_inverse (so2 last))%so2 in
  let delta := Rmin (Rabs theta) (PI - Rabs theta) in
  first_rotation_params_ m' = mkDistributionParam 0 (Num 0)
  /\ translation_params_ m'
     = mkDistributionParam 0
         (cpp_sqrt (translation_noise_from_rotation p * (delta * delta)))
  /\ second_rotation_params_ m'
     = mkDistributionParam theta
         (cpp_sqrt (rotation_noise_from_rotation p * (delta * delta)))
  /\ 0 <= delta <= PI / 2
  /\ (0 <= translation_noise_from_rotation p ->
      stddev (translation_params_ m')
      = Num (sqrt (translation_noise_from_rotation p) * delta))
  /\ (0 <= rotation_noise_from_rotation p ->
      stddev (second_rotation_params_ m')
      = Num (sqrt (rotation_noise_from_rotation p) * delta)).
Proof.
  intros Hlast Hul Hup Htr Hthr. cbv zeta.
  pose proof (distance_same_translation last pose Htr) as Hdist.
  assert (first_rotation (params_ m) last pose = SO2_identity) as Hfirst.
  { apply first_rotation_near. now rewrite Hdist. }
  assert (second_rotation (params_ m) last pose
          = (so2 pose * SO2_inverse (so2 last))%so2) as Hsecond.
  { unfold second_rotation.
    now rewrite Hfirst, SO2_inverse_identity, SO2_mul_1_r. }
  assert (unit_complex (so2 pose * SO2_inverse (so2 last))%so2) as Hur
    by auto with so2.
  pose proof (rotation_variance_closed _ Hur) as Hrv.
  pose proof (SO2_log_bound (so2 pose * SO2_inverse (so2 last))%so2)
    as [Hlo Hhi].
  set (theta := SO2_log (so2 pose * SO2_inverse (so2 last))%so2) in *.
  set (delta := Rmin (Rabs theta) (PI - Rabs theta)) in *.
  assert (0 <= delta <= PI / 2) as Hdelta.
  { unfold delta, Rmin, Rabs.
    destruct (Rcase_abs theta); destruct (Rle_dec _ _); lra. }
  assert (forall a : R, 0 <= a ->
            cpp_sqrt (a * (delta * delta)) = Num (sqrt a * delta)) as Hsqrt.
  { intros a Ha. rewrite cpp_sqrt_nonneg by nra.
    rewrite sqrt_mult by nra. now rewrite sqrt_square by lra. }
  rewrite (update_motion_next _ _ _ Hlast).
  cbn [first_rotation_params_ translation_params_ second_rotation_params_
       stddev].
  unfold first_rotation_radicand, translation_radicand,
    second_rotation_radicand, combined_rotation, distance_variance.
  rewrite Hfirst, Hsecond, SO2_mul_1_l, Hrv, rotation_variance_identity,
    SO2_log_identity, Hdist.
  fold theta.
  rewrite !Rmult_0_r, !Rplus_0_r, !Rplus_0_l, cpp_sqrt_0.
  repeat split; try lra; intros Ha; now apply Hsqrt.
Qed.

Lemma turn_on_the_spot_noise_witness :
  first_rotation_params_
    (feed [Scenario.origin; Scenario.ahead; Scenario.turned]
          (make Scenario.params))
  = mkDistributionParam 0 (Num 0).
Proof.
  apply (turn_on_the_spot_noise
           (feed [Scenario.origin; Scenario.ahead] (make Scenario.params))
           Scenario.ahead Scenario.turned eq_refl
           (unit_exp 0) (unit_exp (PI / 2)) eq_refl).
  simpl. lra.
Defined.

(** *** Decomposing a composed motion *)

Module ComposeFacts.
Import Cmath Eigen Sophus DifferentialDriveModel.
Import CmathFacts SophusFacts ModelFacts RoundTrip GeometryFacts.

Lemma SO2_residual (a f s : SO2) :
  unit_complex a -> unit_complex f ->
  (a * f * s * SO2_inverse a * SO2_inverse f)%so2 = s.
Proof.
  unfold unit_complex. intros Ha Hf. apply SO2_eq; simpl.
  - transitivity (re s * (re a * re a + im a * im a)
                       * (re f * re f + im f * im f)); [ring|].
    rewrite Ha, Hf. ring.
  - transitivity (im s * (re a * re a + im a * im a)
                       * (re f * re f + im f * im f)); [ring|].
    rewrite Ha, Hf. ring.
Qed.

Section Composed.
Variable p : DifferentialDriveModelParam.
Variable last : SE2.
Variables f d s : R.
Hypothesis unit_last : unit_complex (so2 last).
Hypothesis positive : 0 < d.

Lemma delta_sampled :
  translation_delta last (sampled_motion last f d s)
  = mkVector2d (d * re (so2 last * SO2_exp f)%so2)
               (d * im (so2 last * SO2_exp f)%so2).
Proof.
  unfold translation_delta, vsub, sampled_motion.
  apply Vector2d_eq; simpl; ring.
Qed.

Lemma distance_sampled : distance last (sampled_motion last f d s) = d.
Proof.
  unfold distance, norm. rewrite delta_sampled. cbn [vx vy].
  apply hypot_scaled; [auto with so2 | lra].
Qed.

Lemma first_rotation_sampled :
  distance_threshold p < d ->
  first_rotation p last (sampled_motion last f d s) = SO2_exp f.
Proof.
  intros Hfar.
  rewrite first_rotation_far by (rewrite distance_sampled; exact Hfar).
  rewrite delta_sampled. cbn [vx vy].
  rewrite SO2_exp_atan2_scaled by auto with so2.
  rewrite SO2_mul_assoc. now apply SO2_heading.
Qed.

Lemma second_rotation_sampled :
  distance_threshold p < d ->
  second_rotation p last (sampled_motion last f d s) = SO2_exp s.
Proof.
  intros Hfar. unfold second_rotation.
  rewrite first_rotation_sampled by assumption.
  unfold sampled_motion. cbn [so2 SE2_mul].
  apply SO2_residual; auto with so2.
Qed.
End Composed.

End ComposeFacts.

Import ComposeFacts.

(** X12: decomposition undoes composition.  When the new pose is the stored
    pose composed with a rotation by [f], a translation by [d] along the
    heading and a rotation by [s], with [d] positive and above the
    threshold and both angles between [-PI] (excluded) and [PI] (included),
    the three means published are [f], [d] and [s]. *)
Theorem decomposition_of_composed_motion (m : t) (last : SE2) (f d s : R) :
  last_pose_ m = Some last -> unit_complex (so2 last) ->
  0 < d -> distance_threshold (params_ m) < d ->
  - PI < f <= PI -> - PI < s <= PI ->
  let m' := update_motion (sampled_motion last f d s) m in
  mean (first_rotation_params_ m') = f
  /\ mean (translation_params_ m') = d
  /\ mean (second_rotation_params_ m') = s.
Proof.
  intros Hlast Hu Hd Hfar Hf Hs. cbv zeta.
  rewrite (update_motion_next _ _ _ Hlast).
  cbn [first_rotation_params_ translation_params_ second_rotation_params_ mean].
  rewrite first_rotation_sampled, second_rotation_sampled, distance_sampled
    by assumption.
  repeat split; now apply SO2_log_exp.
Qed.

Lemma decomposition_of_composed_motion_witness :
  let m' := update_motion (sampled_motion Scenario.origin (PI / 2) 1 (- (PI / 2)))
              (update_motion Scenario.origin (make Scenario.params)) in
  mean (first_rotation_params_ m') = PI / 2
  /\ mean (translation_params_ m') = 1
  /\ mean (second_rotation_params_ m') = - (PI / 2).
Proof.
  pose proof PI_RGT_0 as Hpi.
  apply (decomposition_of_composed_motion
           (update_motion Scenario.origin (make Scenario.params))
           Scenario.origin (PI / 2) 1 (- (PI / 2)) eq_refl (unit_exp 0)).
  - lra.
  - simpl. lra.
  - lra.
  - lra.
Defined.

(** *** The motion taken backwards, and a negative threshold *)

Module ReverseFacts.
Import Cmath Eigen Sophus DifferentialDriveModel.
Import CmathFacts SophusFacts ModelFacts RoundTrip GeometryFacts StraightFacts.

Lemma SO2_inverse_involutive (r : SO2) : SO2_inverse (SO2_inverse r) = r.
Proof. apply SO2_eq; simpl; ring. Qed.

Lemma SO2_inverse_mul (a b : SO2) :
  SO2_inverse (a * b)%so2 = (SO2_inverse a * SO2_inverse b)%so2.
Proof. apply SO2_eq; simpl; ring. Qed.

(** Inverting a rotation keeps the absolute value of its angle. *)
Lemma SO2_log_inverse_abs (r : SO2) :
  unit_complex r -> Rabs (SO2_log (SO2_inverse r)) = Rabs (SO2_log r).
Proof.
  intros Hr. pose proof (SO2_log_bound r) as [Hlo Hhi].
  assert (SO2_inverse r = SO2_exp (- SO2_log r)) as E
    by (now rewrite <- SO2_inverse_exp, SO2_exp_log).
  rewrite E.
  destruct (Req_dec (SO2_log r) PI) as [Hpi|Hpi].
  - rewrite Hpi.
    replace (SO2_exp (- PI)) with (SO2_exp PI).
    + now rewrite SO2_log_half_turn_exact.
    + unfold SO2_exp. rewrite cos_neg, sin_neg, sin_PI.
      apply SO2_eq; simpl; ring.
  - rewrite SO2_log_exp by lra. apply Rabs_Ropp.
Qed.

Lemma rotation_variance_inverse (r : SO2) :
  unit_complex r -> rotation_variance (SO2_inverse r) = rotation_variance r.
Proof.
  intros Hr.
  rewrite !rotation_variance_closed by auto with so2.
  now rewrite SO2_log_inverse_abs.
Qed.

(** The opposite direction is a half turn away. *)
Lemma heading_opposite (x y : R) :
  0 < sqrt (x * x + y * y) ->
  SO2_exp (atan2 (- y) (- x)) = (SO2_exp (atan2 y x) * SO2_exp PI)%so2.
Proof.
  intros Hn.
  assert (- x * - x + - y * - y = x * x + y * y) as E by ring.
  rewrite !SO2_exp_atan2_direction by (rewrite ?E; exact Hn).
  rewrite E, SO2_mul_half_turn. apply SO2_eq; simpl; field; lra.
Qed.

(** The second rotation once the first one is known, forth and back. *)
Lemma SO2_second_far (a b h : SO2) :
  unit_complex a ->
  (b * SO2_inverse a * SO2_inverse (h * SO2_inverse a))%so2
  = (b * SO2_inverse h)%so2.
Proof.
  unfold unit_complex. intros Ha. apply SO2_eq; simpl.
  - transitivity ((re b * re h + im b * im h)
                  * (re a * re a + im a * im a)); [ring|].
    rewrite Ha. ring.
  - transitivity ((im b * re h - re b * im h)
                  * (re a * re a + im a * im a)); [ring|].
    rewrite Ha. ring.
Qed.

Lemma SO2_second_back (a b h : SO2) :
  unit_complex b ->
  (a * SO2_inverse b
   * SO2_inverse (h * SO2_inverse b * SO2_exp PI))%so2
  = (a * SO2_inverse h * SO2_exp PI)%so2.
Proof.
  unfold unit_complex. intros Hb. rewrite SO2_exp_PI.
  apply SO2_eq; simpl.
  - transitivity (- (re a * re h + im a * im h)
                  * (re b * re b + im b * im b)); [ring|].
    rewrite Hb. ring.
  - transitivity (- (im a * re h - re a * im h)
                  * (re b * re b + im b * im b)); [ring|].
    rewrite Hb. ring.
Qed.

Section Reverse.
Variable p : DifferentialDriveModelParam.
Variables a b : SE2.
Hypothesis unit_a : unit_complex (so2 a).
Hypothesis unit_b : unit_complex (so2 b).

Lemma delta_reverse :
  translation_delta b a
  = mkVector2d (- vx (translation_delta a b)) (- vy (translation_delta a b)).
Proof. unfold translation_delta, vsub. apply Vector2d_eq; simpl; ring. Qed.

Lemma distance_reverse : distance b a = distance a b.
Proof.
  unfold distance, norm. rewrite delta_reverse. cbn [vx vy]. f_equal. ring.
Qed.

Hypothesis moved : 0 < distance a b.
Hypothesis far : distance_threshold p < distance a b.

Lemma unit_heading : unit_complex (heading_of_travel a b).
Proof. apply unit_exp. Qed.

Lemma first_rotation_forth :
  first_rotation p a b = ((heading_of_travel a b) * SO2_inverse (so2 a))%so2.
Proof. now apply first_rotation_far. Qed.

Lemma second_rotation_forth :
  second_rotation p a b = (so2 b * SO2_inverse (heading_of_travel a b))%so2.
Proof.
  unfold second_rotation. rewrite first_rotation_forth.
  now apply SO2_second_far.
Qed.

Lemma first_rotation_back :
  first_rotation p b a
  = ((heading_of_travel a b) * SO2_inverse (so2 b) * SO2_exp PI)%so2.
Proof.
  rewrite first_rotation_far by (rewrite distance_reverse; exact far).
  rewrite delta_reverse. cbn [vx vy].
  rewrite heading_opposite by exact moved.
  fold (heading_of_travel a b).
  rewrite !SO2_mul_assoc. f_equal. apply SO2_mul_comm.
Qed.

Lemma second_rotation_back :
  second_rotation p b a
  = (so2 a * SO2_inverse (heading_of_travel a b) * SO2_exp PI)%so2.
Proof.
  unfold second_rotation. rewrite first_rotation_back.
  now apply SO2_second_back.
Qed.

Lemma rotation_variance_first_back :
  rotation_variance (first_rotation p b a)
  = rotation_variance (second_rotation p a b).
Proof.
  rewrite first_rotation_back, second_rotation_forth.
  rewrite rotation_variance_half_turn.
  rewrite <- (rotation_variance_inverse (so2 b * SO2_inverse (heading_of_travel a b))%so2)
    by (pose proof unit_heading; auto with so2).
  now rewrite SO2_inverse_mul, SO2_inverse_involutive, SO2_mul_comm.
Qed.

Lemma rotation_variance_second_back :
  rotation_variance (second_rotation p b a)
  = rotation_variance (first_rotation p a b).
Proof.
  rewrite second_rotation_back, first_rotation_forth.
  rewrite rotation_variance_half_turn.
  rewrite <- (rotation_variance_inverse ((heading_of_travel a b) * SO2_inverse (so2 a))%so2)
    by (pose proof unit_heading; auto with so2).
  now rewrite SO2_inverse_mul, SO2_inverse_involutive, SO2_mul_comm.
Qed.

Lemma rotation_variance_combined_back :
  rotation_variance (combined_rotation p b a)
  = rotation_variance (combined_rotation p a b).
Proof.
  unfold combined_rotation, second_rotation.
  rewrite !SO2_heading by now apply unit_first_rotation.
  rewrite <- (rotation_variance_inverse (so2 b * SO2_inverse (so2 a))%so2)
    by auto with so2.
  now rewrite SO2_inverse_mul, SO2_inverse_involutive, SO2_mul_comm.
Qed.
End Reverse.

End ReverseFacts.

Import ReverseFacts.

(** X13: taking a motion backwards swaps the noise of the two rotations.
    For two poses [a] and [b] further apart than the threshold (and not at
    the same place), the update from [b] to [a] publishes for its first
    rotation the standard deviation the update from [a] to [b] publishes
    for its second rotation, and the other way round, while the mean and
    the standard deviation of the translation are the same. *)
Theorem reversed_motion_swaps_rotation_noise (m m' : t) (a b : SE2) :
  last_pose_ m = Some a -> last_pose_ m' = Some b ->
  params_ m' = params_ m ->
  unit_complex (so2 a) -> unit_complex (so2 b) ->
  0 < distance a b -> distance_threshold (params_ m) < distance a b ->
  stddev (first_rotation_params_ (update_motion a m'))
  = stddev (second_rotation_params_ (update_motion b m))
  /\ stddev (second_rotation_params_ (update_motion a m'))
     = stddev (first_rotation_params_ (update_motion b m))
  /\ translation_params_ (update_motion a m')
     = translation_params_ (update_motion b m).
Proof.
  intros Hm Hm' Hp Ha Hb Hmoved Hfar.
  rewrite (update_motion_next _ _ _ Hm), (update_motion_next _ _ _ Hm').
  cbn [first_rotation_params_ translation_params_ second_rotation_params_
       stddev].
  rewrite Hp.
  unfold first_rotation_radicand, translation_radicand,
    second_rotation_radicand, distance_variance.
  rewrite (rotation_variance_first_back (params_ m) a b),
    (rotation_variance_second_back (params_ m) a b),
    (rotation_variance_combined_back (params_ m) a b),
    (distance_reverse a b) by assumption.
  repeat split.
Qed.

Lemma reversed_motion_swaps_rotation_noise_witness :
  stddev (first_rotation_params_
            (update_motion Scenario.origin
               (update_motion Scenario.turned (make Scenario.params))))
  = stddev (second_rotation_params_
              (update_motion Scenario.turned
                 (update_motion Scenario.origin (make Scenario.params)))).
Proof.
  assert (distance Scenario.origin Scenario.turned = 1) as Hd.
  { unfold distance, norm, translation_delta, vsub; simpl.
    replace ((1 - 0) * (1 - 0) + (0 - 0) * (0 - 0)) with 1 by ring.
    apply sqrt_1. }
  apply (reversed_motion_swaps_rotation_noise
           (update_motion Scenario.origin (make Scenario.params))
           (update_motion Scenario.turned (make Scenario.params))
           Scenario.origin Scenario.turned eq_refl eq_refl eq_refl
           (unit_exp 0) (unit_exp (PI / 2))).
  - rewrite Hd. lra.
  - rewrite Hd. simpl. lra.
Defined.

(** X14: a negative threshold switches the degenerate branch off, and the
    code accepts it.  A call of [update_motion] with the pose already
    stored then publishes, for a robot that did not move, the angle of the
    inverse of its orientation as the mean of the first rotation and the
    angle of its orientation as the mean of the second, each with the
    square root of [rotation_noise_from_rotation] times the rotation
    variance of the orientation as standard deviation; the translation
    keeps mean 0 and standard deviation 0. *)
Theorem negative_threshold_at_rest (m : t) (pose : SE2) :
  last_pose_ m = Some pose -> unit_complex (so2 pose) ->
  distance_threshold (params_ m) < 0 ->
  let m' := update_motion pose m in
  let sd := cpp_sqrt (rotation_noise_from_rotation (params_ m)
                      * rotation_variance (so2 pose)) in
  first_rotation_params_ m'
  = mkDistributionParam (SO2_log (SO2_inverse (so2 pose))) sd
  /\ second_rotation_params_ m' = mkDistributionParam (SO2_log (so2 pose)) sd
  /\ translation_params_ m' = mkDistributionParam 0 (Num 0).
Proof.
  intros Hlast Hu Hthr. cbv zeta.
  assert (first_rotation (params_ m) pose pose = SO2_inverse (so2 pose))
    as Hfirst.
  { rewrite first_rotation_far by (rewrite distance_self; exact Hthr).
    unfold translation_delta, vsub; simpl.
    replace (vy (translation pose) - vy (translation pose)) with 0 by ring.
    replace (vx (translation pose) - vx (translation pose)) with 0 by ring.
    now rewrite atan2_0_0, SO2_exp_0, SO2_mul_1_l. }
  assert (second_rotation (params_ m) pose pose = so2 pose) as Hsecond.
  { unfold second_rotation.
    rewrite Hfirst, SO2_inverse_involutive, SO2_mul_inverse_r by assumption.
    apply SO2_mul_1_l. }
  rewrite (update_motion_next _ _ _ Hlast).
  cbn [first_rotation_params_ translation_params_ second_rotation_params_].
  unfold first_rotation_radicand, translation_radicand,
    second_rotation_radicand, combined_rotation, distance_variance.
  rewrite Hfirst, Hsecond, distance_self.
  rewrite (SO2_mul_comm (SO2_inverse (so2 pose))),
    SO2_mul_inverse_r by assumption.
  rewrite rotation_variance_inverse, rotation_variance_identity by assumption.
  rewrite !Rmult_0_r, !Rplus_0_r, cpp_sqrt_0.
  repeat split.
Qed.

Lemma negative_threshold_at_rest_witness :
  mean (second_rotation_params_
          (update_motion Scenario.turned
             (update_motion Scenario.turned
                (make (mkParam (1 / 10) (1 / 10) (1 / 10) (1 / 10) (- (1)))))))
  = SO2_log (SO2_exp (PI / 2)).
Proof.
  destruct (negative_threshold_at_rest
              (update_motion Scenario.turned
                 (make (mkParam (1 / 10) (1 / 10) (1 / 10) (1 / 10) (- (1)))))
              Scenario.turned eq_refl (unit_exp (PI / 2)))
    as (_ & H & _).
  - simpl. lra.
  - cbv zeta in H. rewrite H. reflexivity.
Defined.
